(** * Fractal point generation: Barnsley fern, Koch curve, Sierpinski triangle

    A shallow embedding of the point-generation code of [simulator.py]
    (the part of each [animate_*] function that runs before any plotting)
    together with the properties its specification states.

    The script computes on numpy [float64] values.  The embedding is written
    once over a small interface of scalar operations ([Scalar], [Sqrt]) and
    read at two instances: the kernel's binary64 floats, which is what the
    script runs on, and the rationals [Q], which is exact arithmetic. *)

From Stdlib Require Import Reals Lra.
From Stdlib Require Import ZArith QArith Qpower Lqa Lia.
From Stdlib Require Import Floats.PrimFloat Floats.FloatOps Floats.SpecFloat.
From stdpp Require Import base list.

#[local] Set Warnings "-inexact-float".

(** ** Scalars *)

(** The arithmetic the script uses on array entries.  [f_of_Z] is the
    conversion of a Python int (the [3] of [base / 3], the entries of
    [np.array([2, 4])]) to a scalar, [fhalf] the literal [0.5]. *)
Class Scalar (F : Type) := {
  f_of_Z : Z -> F;
  fhalf : F;
  fadd : F -> F -> F;
  fsub : F -> F -> F;
  fmul : F -> F -> F;
  fdiv : F -> F -> F;
  fopp : F -> F;
  fleb : F -> F -> bool
}.

(** [np.sqrt] *)
Class Sqrt (F : Type) := fsqrt : F -> F.

Declare Scope scalar_scope.
Delimit Scope scalar_scope with sc.
Infix "+" := fadd : scalar_scope.
Infix "-" := fsub : scalar_scope.
Infix "*" := fmul : scalar_scope.
Infix "/" := fdiv : scalar_scope.
Notation "- x" := (fopp x) : scalar_scope.
Infix "<=?" := fleb : scalar_scope.

(** binary64, the arithmetic of the script *)
Definition float_of_Z (z : Z) : float :=
  match z with
  | Z0 => PrimFloat.zero
  | Zpos _ => PrimFloat.of_uint63 (Uint63Axioms.of_Z z)
  | Zneg p => PrimFloat.opp (PrimFloat.of_uint63 (Uint63Axioms.of_Z (Zpos p)))
  end.

#[export] Instance float_scalar : Scalar float := {|
  f_of_Z := float_of_Z;
  fhalf := 0.5%float;
  fadd := PrimFloat.add;
  fsub := PrimFloat.sub;
  fmul := PrimFloat.mul;
  fdiv := PrimFloat.div;
  fopp := PrimFloat.opp;
  fleb := PrimFloat.leb
|}.

#[export] Instance float_sqrt : Sqrt float := PrimFloat.sqrt.

(** exact rational arithmetic *)
#[export] Instance Q_scalar : Scalar Q := {|
  f_of_Z := inject_Z;
  fhalf := (1 # 2)%Q;
  fadd := Qplus;
  fsub := Qminus;
  fmul := Qmult;
  fdiv := Qdiv;
  fopp := Qopp;
  fleb := Qle_bool
|}.

(** the real numbers, for the geometry of the Koch curve *)
#[export] Instance R_scalar : Scalar R := {|
  f_of_Z := IZR;
  fhalf := (1 / 2)%R;
  fadd := Rplus;
  fsub := Rminus;
  fmul := Rmult;
  fdiv := Rdiv;
  fopp := Ropp;
  fleb := fun a b => if Rle_dec a b then true else false
|}.

#[export] Instance R_sqrt_instance : Sqrt R := R_sqrt.sqrt.

(** The exact value of a finite binary64 number, in lowest terms. *)
Definition float_to_Q (f : float) : option Q :=
  match Prim2SF f with
  | S754_zero _ => Some 0%Q
  | S754_finite s m e =>
      let v := if (0 <=? e)%Z then inject_Z (Z.pos m * 2 ^ e)
               else (Z.pos m # Pos.pow 2 (Z.to_pos (- e)))%Q in
      Some (Qred (if s then Qopp v else v))
  | S754_infinity _ | S754_nan => None
  end.

(** ** Errors *)

(** The exceptions the embedded code can raise. *)
Inductive exn := IndexError | ValueError | RecursionError.

Inductive result (A : Type) :=
| Ok (a : A)
| Raise (e : exn).
Arguments Ok {A} a.
Arguments Raise {A} e.

#[export] Instance result_ret : MRet result := fun _ a => Ok a.
#[export] Instance result_bind : MBind result := fun _ _ k m =>
  match m with
  | Ok a => k a
  | Raise e => Raise e
  end.

Definition raises {A} (r : result A) : Prop := exists e, r = Raise e.

(** ** Points, matrices, transformations *)

Section Geometry.
Context {F : Type} `{Scalar F}.
Local Open Scope scalar_scope.

(** a numpy array of shape (2,) *)
Definition point : Type := F * F.
(** a numpy array of shape (2, 2), row by row *)
Definition matrix2 : Type := (F * F) * (F * F).

Definition vadd (p q : point) : point := (p.1 + q.1, p.2 + q.2).
Definition vsub (p q : point) : point := (p.1 - q.1, p.2 - q.2).
(** [v / k] and [k * v] for a scalar [k] *)
Definition vdiv (p : point) (k : F) : point := (p.1 / k, p.2 / k).
Definition vscale (k : F) (p : point) : point := (k * p.1, k * p.2).
(** [m.dot(p)] *)
Definition dot (m : matrix2) (p : point) : point :=
  (m.1.1 * p.1 + m.1.2 * p.2, m.2.1 * p.1 + m.2.2 * p.2).

(** the dictionaries of the [transformations] table *)
Record transformation := {
  t_matrix : matrix2;
  t_offset : point;
  t_prob : F
}.

Definition apply_transformation (p : point) (t : transformation) : point :=
  let new_point := vadd (dot (t_matrix t) p) (t_offset t) in
  new_point.
End Geometry.
Arguments point F : clear implicits.
Arguments matrix2 F : clear implicits.
Arguments transformation F : clear implicits.

(** ** The Koch curve *)

Section Koch.
Context {F : Type} `{Scalar F} `{Sqrt F}.
Local Open Scope scalar_scope.

(** the matrix [rot] of [koch_curve_points] *)
Definition rot : matrix2 F :=
  ((fhalf, (- fsqrt (f_of_Z 3)) / f_of_Z 2),
   (fsqrt (f_of_Z 3) / f_of_Z 2, fhalf)).

(** [koch_curve_points].  [limit] is the number of nested calls the
    interpreter still allows: Python has no unbounded recursion, a call
    beyond the limit raises [RecursionError].  [l[:-1]] is [removelast]. *)
Fixpoint koch_curve_points (limit : nat) (p1 p2 : point F) (depth : Z)
  : result (list (point F)) :=
  match limit with
  | O => Raise RecursionError
  | S limit =>
      if (depth =? 0)%Z then Ok [p1; p2]
      else
        let base := vsub p2 p1 in
        let pA := vadd p1 (vdiv base (f_of_Z 3)) in
        let pB := vadd p1 (vdiv (vscale (f_of_Z 2) base) (f_of_Z 3)) in
        let peak := vadd pA (dot rot (vdiv base (f_of_Z 3))) in
        c1 ← koch_curve_points limit p1 pA (depth - 1);
        c2 ← koch_curve_points limit pA peak (depth - 1);
        c3 ← koch_curve_points limit peak pB (depth - 1);
        c4 ← koch_curve_points limit pB p2 (depth - 1);
        Ok (removelast c1 ++ removelast c2 ++ removelast c3 ++ c4)
  end.
End Koch.

(** ** The random source *)

(** Python's [random] module keeps one module-level generator.  Its state is
    threaded explicitly: [random_random] is [random.random()], [randbelow n]
    is the index draw behind [random.choice] on a sequence of length [n]. *)
Class RandomSource (F G : Type) := {
  random_random : G -> F * G;
  randbelow : nat -> G -> nat * G;
  randbelow_lt : forall n g, (0 < n)%nat -> ((randbelow n g).1 < n)%nat
}.

(** A computation that may raise and that uses the generator. *)
Definition rand (G A : Type) : Type := G -> result A * G.

#[export] Instance rand_ret {G} : MRet (rand G) := fun _ a g => (Ok a, g).
#[export] Instance rand_bind {G} : MBind (rand G) := fun _ _ k m g =>
  match m g with
  | (Ok a, g') => k a g'
  | (Raise e, g') => (Raise e, g')
  end.

Definition lift {G A} (r : result A) : rand G A := fun g => (r, g).
Definition raise {G A} (e : exn) : rand G A := lift (Raise e).

(** [for i in range: s = body(i, s)] *)
Fixpoint for_each {G St} (body : nat -> St -> rand G St) (range : list nat) (s : St)
  : rand G St :=
  match range with
  | [] => mret s
  | i :: range => s' ← body i s; for_each body range s'
  end.

(** [range(start, stop)]; the loops of the script start at 1, so the indices
    are naturals. *)
Definition range (start : nat) (stop : Z) : list nat :=
  seq start (Z.to_nat stop - start).

(** Two concrete sources, to run the samplers on.  Both produce raw 53-bit
    integers [z]; a real draw is [z / 2^53], an index below [n] is
    [z mod n]. *)
Definition real_of_raw {F} `{Scalar F} (z : Z) : F :=
  fdiv (f_of_Z (z mod 2 ^ 53)%Z) (f_of_Z (2 ^ 53)%Z).

Definition index_of_raw (n : nat) (z : Z) : nat :=
  Z.to_nat (z mod Z.of_nat n)%Z.

Lemma index_of_raw_lt (n : nat) (z : Z) : (0 < n)%nat -> (index_of_raw n z < n)%nat.
Proof.
  intros Hn. unfold index_of_raw.
  pose proof (Z.mod_pos_bound z (Z.of_nat n)). lia.
Qed.

(** a linear congruential generator with a 64-bit state *)
Record lcg := Lcg { lcg_state : Z }.

Definition lcg_next (g : lcg) : Z * lcg :=
  let s := ((lcg_state g * 6364136223846793005 + 1442695040888963407) mod 2 ^ 64)%Z in
  ((s / 2 ^ 11)%Z, Lcg s).

Definition lcg_seed (s : Z) : lcg := Lcg (s mod 2 ^ 64)%Z.

#[export] Instance lcg_source {F} `{Scalar F} : RandomSource F lcg := {|
  random_random g := (real_of_raw (lcg_next g).1, (lcg_next g).2);
  randbelow n g := (index_of_raw n (lcg_next g).1, (lcg_next g).2);
  randbelow_lt n g := index_of_raw_lt n (lcg_next g).1
|}.

(** a source that replays a recorded tape of raw draws (and draws 0 once
    the tape is exhausted) *)
Record replay := Replay { tape : list Z }.

Definition replay_next (g : replay) : Z * replay :=
  match tape g with
  | [] => (0%Z, g)
  | z :: zs => (z, Replay zs)
  end.

#[export] Instance replay_source {F} `{Scalar F} : RandomSource F replay := {|
  random_random g := (real_of_raw (replay_next g).1, (replay_next g).2);
  randbelow n g := (index_of_raw n (replay_next g).1, (replay_next g).2);
  randbelow_lt n g := index_of_raw_lt n (replay_next g).1
|}.

(** ** Arrays *)

Section Arrays.
Context {A : Type}.

(** [np.zeros((n, 2))], with [zero] the row of zeros *)
Definition np_zeros (zero : A) (n : Z) : result (list A) :=
  if (n <? 0)%Z then Raise ValueError else Ok (replicate (Z.to_nat n) zero).

(** [a[i]] and [a[i] = x] for an index [i >= 0] *)
Definition getitem (a : list A) (i : nat) : result A :=
  match a !! i with
  | Some x => Ok x
  | None => Raise IndexError
  end.

Definition setitem (a : list A) (i : nat) (x : A) : result (list A) :=
  if decide (i < length a)%nat then Ok (<[i:=x]> a) else Raise IndexError.

(** [random.choice(seq)] *)
Definition random_choice {F G} `{RandomSource F G} (seq : list A) : rand G A :=
  match seq with
  | [] => raise IndexError
  | _ => fun g => let '(i, g') := randbelow (length seq) g in lift (getitem seq i) g'
  end.
End Arrays.

(** ** The Barnsley fern *)

Section Barnsley.
Context {F G : Type} `{Scalar F} `{RandomSource F G}.
Local Open Scope scalar_scope.

(** the [for t in transformations] loop of [choose_transformation] *)
Fixpoint scan (r cumulative_prob : F) (ts : list (transformation F))
  : option (transformation F) :=
  match ts with
  | [] => None
  | t :: ts =>
      let cumulative_prob := cumulative_prob + t_prob t in
      if r <=? cumulative_prob then Some t else scan r cumulative_prob ts
  end.

Definition choose_transformation (transformations : list (transformation F))
  : rand G (transformation F) :=
  fun g =>
    let '(r, g') := random_random g in
    match scan r (f_of_Z 0) transformations with
    | Some t => (Ok t, g')
    | None => lift (match last transformations with
                    | Some t => Ok t
                    | None => Raise IndexError
                    end) g'
    end.

(** [animate_barnsley] up to the end of the generation loop, with the
    table and [num_points] as parameters; the result is [points]. *)
Definition animate_barnsley (transformations : list (transformation F))
    (num_points : Z) : rand G (list (point F)) :=
  points ← lift (np_zeros (f_of_Z 0, f_of_Z 0) num_points);
  let current_point : point F := (f_of_Z 0, f_of_Z 0) in
  points ← lift (setitem points 0 current_point);
  s ← for_each (fun i '(current_point, points) =>
                  trans ← choose_transformation transformations;
                  let current_point := apply_transformation current_point trans in
                  points ← lift (setitem points i current_point);
                  mret (current_point, points))
               (range 1 num_points) (current_point, points);
  mret s.2.
End Barnsley.

(** the table of the script *)
Definition transformations : list (transformation float) := [
  {| t_matrix := ((0.0, 0.0), (0.0, 0.16));
     t_offset := (0.0, 0.0);
     t_prob := 0.01 |};
  {| t_matrix := ((0.85, 0.04), (-0.04, 0.85));
     t_offset := (0.0, 1.6);
     t_prob := 0.85 |};
  {| t_matrix := ((0.2, -0.26), (0.23, 0.22));
     t_offset := (0.0, 1.6);
     t_prob := 0.07 |};
  {| t_matrix := ((-0.15, 0.28), (0.26, 0.24));
     t_offset := (0.0, 0.44);
     t_prob := 0.07 |}
]%float.

(** ** The Sierpinski triangle *)

Section Sierpinski.
Context {F G : Type} `{Scalar F} `{RandomSource F G}.

(** [animate_sierpinski] up to the end of the generation loop, with the
    list [vertices] and [total_points] as parameters.  The script builds
    [vertices = [A, B, C]] from three literals and starts from [A]; here
    [A] is read as [vertices[0]], so that the definition is the script on
    the lists [[A; B; C]] it builds.  The script's vertices are arrays of small
    integers, which the first division by [2.0] and the store into
    [points_sier] turn into floats without loss; here they are scalars from
    the start.  The result is [points_sier]. *)
Definition animate_sierpinski (vertices : list (point F)) (total_points : Z)
  : rand G (list (point F)) :=
  A ← lift (getitem vertices 0);
  let current : point F := A in
  points_sier ← lift (np_zeros (f_of_Z 0, f_of_Z 0) total_points);
  points_sier ← lift (setitem points_sier 0 current);
  s ← for_each (fun i '(current, points_sier) =>
                  chosen ← random_choice vertices;
                  let current := vdiv (vadd current chosen) (f_of_Z 2) in
                  points_sier ← lift (setitem points_sier i current);
                  mret (current, points_sier))
               (range 1 total_points) (current, points_sier);
  mret s.2.
End Sierpinski.

(** the triangle of the script *)
Definition triangle {F} `{Scalar F} : list (point F) :=
  [(f_of_Z 0, f_of_Z 0); (f_of_Z 2, f_of_Z 4); (f_of_Z 4, f_of_Z 0)].

(** ** Vocabulary of the statements *)

(** The values a drawing computation yields on [n] successive calls,
    starting from generator state [g] (cut short at a call that raises). *)
Fixpoint draw_list {G X} (draw : rand G X) (n : nat) (g : G) : list X :=
  match n with
  | O => []
  | S n =>
      match draw g with
      | (Ok x, g') => x :: draw_list draw n g'
      | (Raise _, _) => []
      end
  end.

(** The points visited from [p] under the successive inputs [xs]. *)
Fixpoint orbit {P X} (step : P -> X -> P) (p : P) (xs : list X) : list P :=
  match xs with
  | [] => []
  | x :: xs => let q := step p x in q :: orbit step q xs
  end.

(** The shape shared by the bodies of the two sampling loops: draw, move the
    current point, store it at index [i]. *)
Definition chain_body {G P X} (draw : rand G X) (step : P -> X -> P)
    (i : nat) (s : P * list P) : rand G (P * list P) :=
  let '(current, points) := s in
  x ← draw;
  let current := step current x in
  points ← lift (setitem points i current);
  mret (current, points).

(** ... and of the two samplers: allocate [count] rows, store the start at
    index 0, run the loop over [range(1, count)]. *)
Definition chain_run {G P X} (draw : rand G X) (step : P -> X -> P)
    (zero start : P) (count : Z) : rand G (list P) :=
  points ← lift (np_zeros zero count);
  points ← lift (setitem points 0 start);
  s ← for_each (chain_body draw step) (range 1 count) (start, points);
  mret s.2.

(** Weighted selection as the specification words it: the cumulative
    weights in table order, the first of them that reaches the draw [r], and
    the last transform when none does. *)
Section Selection.
Context {F : Type} `{Scalar F}.

Fixpoint cumulative_weights (acc : F) (ts : list (transformation F)) : list F :=
  match ts with
  | [] => []
  | t :: ts => let c := fadd acc (t_prob t) in c :: cumulative_weights c ts
  end.

Definition select_first_reaching (r : F) (ts : list (transformation F))
  : option (transformation F) :=
  match list_find (fun c => fleb r c = true) (cumulative_weights (f_of_Z 0) ts) with
  | Some (k, _) => ts !! k
  | None => last ts
  end.
End Selection.

(** A table that a validation of the weights would reject: one transform,
    of weight -1. *)
Definition negative_weight_table : list (transformation float) :=
  [{| t_matrix := ((0.5, 0), (0, 0.5)); t_offset := (1, 1); t_prob := -1 |}]%float.

(** the table of the script with its decimal literals read exactly *)
Definition transformations_exact : list (transformation Q) := [
  {| t_matrix := ((0, 0), (0, 16 # 100));
     t_offset := (0, 0);
     t_prob := 1 # 100 |};
  {| t_matrix := ((85 # 100, 4 # 100), (- 4 # 100, 85 # 100));
     t_offset := (0, 16 # 10);
     t_prob := 85 # 100 |};
  {| t_matrix := ((2 # 10, - 26 # 100), (23 # 100, 22 # 100));
     t_offset := (0, 16 # 10);
     t_prob := 7 # 100 |};
  {| t_matrix := ((- 15 # 100, 28 # 100), (26 # 100, 24 # 100));
     t_offset := (0, 44 # 100);
     t_prob := 7 # 100 |}
]%Q.

(** the squared distance of two points of the rational plane *)
Definition sqdist_Q (p q : point Q) : Q :=
  ((q.1 - p.1) * (q.1 - p.1) + (q.2 - p.2) * (q.2 - p.2))%Q.

(** An octagon around the fern: bounds on [x], [y], [x + y] and [y - x]. *)
Definition fern_region (p : point Q) : Prop :=
  (- (253 # 100) <= p.1 /\ p.1 <= 139 # 50 /\
   0 <= p.2 /\ p.2 <= 521 # 50 /\
   0 <= p.1 + p.2 /\ p.1 + p.2 <= 1281 # 100 /\
   p.1 - p.2 <= 88 # 100 /\ p.2 - p.1 <= 949 # 100)%Q.

(** the squared distance of two points of the real plane *)
Definition sqdist (p q : point R) : R :=
  ((q.1 - p.1) * (q.1 - p.1) + (q.2 - p.2) * (q.2 - p.2))%R.

(** The triangle over a segment that the Koch curve grows in: its apex is
    above the middle of the segment, at height [sqrt 3 / 6] times its
    length (base angles of 30 degrees). *)
Definition koch_apex (a b : point R) : point R :=
  (a.1 + (b.1 - a.1) / 2 - R_sqrt.sqrt 3 / 6 * (b.2 - a.2),
   a.2 + (b.2 - a.2) / 2 + R_sqrt.sqrt 3 / 6 * (b.1 - a.1))%R.

(** the convex hull of three points of the real plane *)
Definition in_triangle (A B C p : point R) : Prop :=
  exists a b c : R,
    (0 <= a /\ 0 <= b /\ 0 <= c /\ a + b + c = 1 /\
     p.1 = a * A.1 + b * B.1 + c * C.1 /\
     p.2 = a * A.2 + b * B.2 + c * C.2)%R.

(** The convex hull of three points of the rational plane: the convex
    combinations of the vertices. *)
Definition in_hull (A B C p : point Q) : Prop :=
  exists a b c : Q,
    (0 <= a /\ 0 <= b /\ 0 <= c /\ a + b + c == 1 /\
     p.1 == a * A.1 + b * B.1 + c * C.1 /\
     p.2 == a * A.2 + b * B.2 + c * C.2)%Q.

(** The exact position of a binary64 point. *)
Definition point_to_Q (p : point float) : option (point Q) :=
  x ← float_to_Q p.1; y ← float_to_Q p.2; Some (x, y).

(** The values a generator yields on [n] successive raw draws ([raw] is
    [random_random], or [randbelow len]) from state [g]: what a seed fixes. *)
Fixpoint raw_draws {G D} (raw : G -> D * G) (n : nat) (g : G) : list D :=
  match n with
  | O => []
  | S n => (raw g).1 :: raw_draws raw n (raw g).2
  end.

(** ** The Koch levels and the animation frames *)

Section KochLevels.
Context {F : Type} `{Scalar F} `{Sqrt F}.

(** the loop of [animate_koch] that fills [all_levels], over the depths
    still to come *)
Fixpoint koch_levels_loop (limit : nat) (p1 p2 : point F) (depths : list Z)
    (all_levels : list (list (point F))) : result (list (list (point F))) :=
  match depths with
  | [] => Ok all_levels
  | depth :: depths =>
      pts ← koch_curve_points limit p1 p2 depth;
      koch_levels_loop limit p1 p2 depths (all_levels ++ [pts])
  end.

(** [animate_koch] up to the end of that loop, with the endpoints and
    [max_depth] as parameters; the result is [all_levels]. *)
Definition animate_koch (limit : nat) (p1 p2 : point F) (max_depth : Z)
  : result (list (list (point F))) :=
  koch_levels_loop limit p1 p2
    (Z.of_nat <$> seq 0 (Z.to_nat (max_depth + 1))) [].

(** [update] of [animate_koch]: the columns [x, y] handed to
    [line.set_data] *)
Definition koch_update (all_levels : list (list (point F))) (frame : nat)
  : result (list F * list F) :=
  match getitem all_levels frame with
  | Ok pts => Ok (fst <$> pts, snd <$> pts)
  | Raise e => Raise e
  end.
End KochLevels.

(** [int(x)] on a scalar: truncation towards zero, [None] where Python
    raises (an infinity, a NaN). *)
Class Trunc (F : Type) := ftrunc : F -> option Z.

Definition float_trunc (f : float) : option Z :=
  match Prim2SF f with
  | S754_zero _ => Some 0%Z
  | S754_finite s m e =>
      let v := if (0 <=? e)%Z then (Z.pos m * 2 ^ e)%Z
               else (Z.pos m / 2 ^ (- e))%Z in
      Some (if s then (- v)%Z else v)
  | S754_infinity _ | S754_nan => None
  end.

#[export] Instance float_trunc_instance : Trunc float := float_trunc.
#[export] Instance Q_trunc : Trunc Q :=
  fun q => Some (Z.quot (Qnum q) (Z.pos (Qden q))).

(** [l[:stop]]: a negative [stop] counts from the end *)
Definition slice_to {A} (l : list A) (stop : Z) : list A :=
  if (stop <? 0)%Z then take (Z.to_nat (Z.of_nat (length l) + stop)) l
  else take (Z.to_nat stop) l.

Section Frames.
Context {F : Type} `{Scalar F} `{Trunc F} {P : Type}.

(** the rows that [update(frame)] hands to [scat.set_offsets], for a
    sampler animated over [total_frames] frames *)
Definition update_rows (total_frames : Z) (points : list P) (num_points frame : Z)
  : option (list P) :=
  k ← ftrunc (fmul (fdiv (f_of_Z frame) (f_of_Z total_frames)) (f_of_Z num_points));
  let max_index := Z.min num_points k in
  Some (slice_to points max_index).

(** [update] of [animate_barnsley] ([total_frames = 200]) and of
    [animate_sierpinski] ([total_frames = 100]) *)
Definition barnsley_update := update_rows 200.
Definition sierpinski_update := update_rows 100.
End Frames.

(** the frames [FuncAnimation] passes to [update]: [range(500)] for the
    fern, [range(100)] for the triangle *)
Definition barnsley_frames : list Z := Z.of_nat <$> seq 0 500.
Definition sierpinski_frames : list Z := Z.of_nat <$> seq 0 100.

(** * Properties *)

(** ** Lists *)

Lemma length_removelast {A} (l : list A) :
  length (removelast l) = pred (length l).
Proof.
  rewrite removelast_firstn_len, length_take. lia.
Qed.

Lemma head_removelast {A} (l : list A) :
  (2 <= length l)%nat -> head (removelast l) = head l.
Proof.
  destruct l as [|a [|b l]]; simpl; intros; try lia; reflexivity.
Qed.

(** ** The sampling loop *)

Ltac rand_simpl :=
  repeat (progress (unfold mbind, mret, rand_bind, rand_ret, lift, raise; cbn beta iota)).

Section Chain.
Context {G P X : Type} (draw : rand G X) (step : P -> X -> P).

Lemma length_orbit (p : P) (xs : list X) : length (orbit step p xs) = length xs.
Proof.
  revert p; induction xs as [|x xs IH]; intros p; simpl; [|rewrite IH]; reflexivity.
Qed.

(** entry [k] of the orbit is the step from its predecessor under input [k] *)
Lemma orbit_lookup (xs : list X) :
  forall (p : P) (k : nat) (x : X),
    xs !! k = Some x ->
    exists q, (p :: orbit step p xs) !! k = Some q /\
              orbit step p xs !! k = Some (step q x).
Proof.
  induction xs as [|y xs IH]; intros p k x Hk; [discriminate|].
  destruct k as [|k]; simpl in *.
  - inversion Hk; subst. exists p. split; reflexivity.
  - apply (IH (step p y)) in Hk. exact Hk.
Qed.

Hypothesis draw_ok : forall g, exists x g', draw g = (Ok x, g').

Lemma length_draw_list (n : nat) : forall g, length (draw_list draw n g) = n.
Proof.
  induction n as [|n IH]; intros g; simpl; [reflexivity|].
  destruct (draw_ok g) as (x & g' & ->). simpl. rewrite IH. reflexivity.
Qed.

(** The loop over [seq a m] overwrites the entries [a .. a+m-1] with the
    orbit of the current point under the [m] draws. *)
Lemma for_each_chain (m : nat) :
  forall (a : nat) (current : P) (points : list P) (g : G),
    (a + m <= length points)%nat ->
    exists current' g',
      for_each (chain_body draw step) (seq a m) (current, points) g
      = (Ok (current',
             list_inserts a (orbit step current (draw_list draw m g)) points), g').
Proof.
  induction m as [|m IH]; intros a current points g Hlen.
  - exists current, g. reflexivity.
  - cbn [seq for_each draw_list]. rand_simpl. unfold chain_body at 1. rand_simpl.
    destruct (draw_ok g) as (x & g1 & ->).
    unfold setitem. destruct (decide (a < length points)%nat) as [Ha|Ha]; [|lia].
    destruct (IH (S a) (step current x) (<[a:=step current x]> points) g1)
      as (c' & g' & ->); [rewrite length_insert; lia|].
    exists c', g'. cbn [orbit list_inserts].
    rewrite list_insert_inserts_lt by lia. reflexivity.
Qed.

(** Reading the array after the loop that started at index 1. *)
Lemma chain_points_lookup (n : nat) (p0 zero : P) (xs : list X) (j : nat) :
  length xs = n ->
  (j < S n)%nat ->
  list_inserts 1 (orbit step p0 xs) (<[0:=p0]> (replicate (S n) zero)) !! j
  = (p0 :: orbit step p0 xs) !! j.
Proof.
  intros Hxs Hj. destruct j as [|j].
  - rewrite list_lookup_inserts_lt by lia. reflexivity.
  - rewrite list_lookup_inserts.
    + simpl. rewrite Nat.sub_0_r. reflexivity.
    + rewrite length_orbit. lia.
    + rewrite length_insert, length_replicate. lia.
Qed.

Lemma draw_list_Forall (Q : X -> Prop) :
  (forall g x g', draw g = (Ok x, g') -> Q x) ->
  forall n g, Forall Q (draw_list draw n g).
Proof.
  intros HQ n. induction n as [|n IH]; intros g; simpl; [constructor|].
  destruct (draw g) as [[x|e] g'] eqn:E; constructor; [eapply HQ, E|apply IH].
Qed.

(** A sampler run with [count >= 1] returns [count] points: the start,
    then each point the step of its predecessor under the next draw. *)
Lemma chain_run_ok (zero start : P) (count : Z) (g : G) :
  (1 <= count)%Z ->
  exists pts g',
    chain_run draw step zero start count g = (Ok pts, g') /\
    Z.of_nat (length pts) = count /\
    pts !! 0%nat = Some start /\
    (forall j, (j < length pts)%nat ->
       pts !! j = (start :: orbit step start (draw_list draw (length pts - 1) g)) !! j) /\
    forall i, (1 <= i < length pts)%nat ->
      exists p x,
        pts !! (i - 1)%nat = Some p /\
        draw_list draw (length pts - 1) g !! (i - 1)%nat = Some x /\
        pts !! i = Some (step p x).
Proof.
  intros Hc. unfold chain_run, np_zeros, range.
  destruct (Z.ltb_spec count 0) as [|_]; [lia|].
  destruct (Z.to_nat count) as [|n] eqn:En; [lia|].
  rand_simpl. unfold setitem at 1. rewrite length_replicate.
  destruct (decide (0 < S n)%nat) as [_|]; [|lia].
  replace (S n - 1)%nat with n by lia.
  destruct (for_each_chain n 1 start (<[0%nat:=start]> (replicate (S n) zero)) g)
    as (c' & g' & ->); [rewrite length_insert, length_replicate; lia|].
  cbn [snd]. eexists _, g'. split; [reflexivity|].
  set (xs := draw_list draw n g).
  assert (Hxs : length xs = n) by apply length_draw_list.
  assert (Hlen : length (list_inserts 1 (orbit step start xs)
                           (<[0%nat:=start]> (replicate (S n) zero))) = S n).
  { rewrite length_inserts, length_insert, length_replicate. reflexivity. }
  rewrite Hlen. replace (S n - 1)%nat with n by lia. fold xs.
  assert (Hlook : forall j, (j < S n)%nat ->
            list_inserts 1 (orbit step start xs)
              (<[0%nat:=start]> (replicate (S n) zero)) !! j
            = (start :: orbit step start xs) !! j).
  { intros j Hj. apply chain_points_lookup; assumption. }
  split; [lia|]. split; [rewrite Hlook by lia; reflexivity|].
  split; [exact Hlook|].
  intros i Hi.
  destruct (lookup_lt_is_Some_2 xs (i - 1)) as [x Hx]; [lia|].
  destruct (orbit_lookup xs start (i - 1) x Hx) as (q & Hq & Hstep).
  exists q, x. rewrite !Hlook by lia.
  split; [exact Hq|]. split; [exact Hx|].
  destruct i as [|i]; [lia|]. simpl in *. rewrite Nat.sub_0_r in Hstep. exact Hstep.
Qed.
End Chain.

(** With no row to store the start in, or a negative count, the run raises
    before the loop, whatever the drawing computation. *)
Lemma chain_run_zero {G P X} (draw : rand G X) (step : P -> X -> P)
    (zero start : P) (g : G) :
  chain_run draw step zero start 0 g = (Raise IndexError, g).
Proof. reflexivity. Qed.

Lemma chain_run_negative {G P X} (draw : rand G X) (step : P -> X -> P)
    (zero start : P) (count : Z) (g : G) :
  (count < 0)%Z -> chain_run draw step zero start count g = (Raise ValueError, g).
Proof.
  intros Hc. unfold chain_run, np_zeros.
  destruct (Z.ltb_spec count 0) as [_|]; [reflexivity|lia].
Qed.

(** ** Koch curve *)

Section KochFacts.
Context {F : Type} `{Scalar F} `{Sqrt F}.

Lemma koch_curve_points_base (limit : nat) (p1 p2 : point F) :
  koch_curve_points (S limit) p1 p2 0 = Ok [p1; p2].
Proof. reflexivity. Qed.

(** With room for [depth] nested calls the recursion returns, and the
    polyline has [4 ^ depth] segments from [p1] to [p2]. *)
Lemma koch_curve_points_shape (limit : nat) :
  forall (p1 p2 : point F) (depth : Z),
    (0 <= depth < Z.of_nat limit)%Z ->
    exists pts,
      koch_curve_points limit p1 p2 depth = Ok pts /\
      Z.of_nat (length pts) = (4 ^ depth + 1)%Z /\
      head pts = Some p1 /\ last pts = Some p2.
Proof.
  induction limit as [|limit IH]; intros p1 p2 depth Hd; [lia|].
  cbn [koch_curve_points].
  destruct (Z.eqb_spec depth 0) as [->|Hne].
  - exists [p1; p2]. repeat split.
  - assert (Hd' : (0 <= depth - 1 < Z.of_nat limit)%Z) by lia.
    set (base := vsub p2 p1).
    set (pA := vadd p1 (vdiv base (f_of_Z 3))).
    set (pB := vadd p1 (vdiv (vscale (f_of_Z 2) base) (f_of_Z 3))).
    set (peak := vadd pA (dot rot (vdiv base (f_of_Z 3)))).
    destruct (IH p1 pA _ Hd') as (c1 & -> & L1 & H1 & _).
    destruct (IH pA peak _ Hd') as (c2 & -> & L2 & _ & _).
    destruct (IH peak pB _ Hd') as (c3 & -> & L3 & _ & _).
    destruct (IH pB p2 _ Hd') as (c4 & -> & L4 & _ & E4).
    eexists; split; [reflexivity|].
    assert (Hpow : (4 ^ depth = 4 * 4 ^ (depth - 1))%Z).
    { replace depth with (Z.succ (depth - 1)) at 1 by lia.
      apply Z.pow_succ_r. lia. }
    assert (0 < 4 ^ (depth - 1))%Z by (apply Z.pow_pos_nonneg; lia).
    split; [|split].
    + rewrite !length_app, !length_removelast. lia.
    + rewrite head_app, head_removelast, H1 by lia. reflexivity.
    + rewrite !last_app, E4. reflexivity.
Qed.

(** A negative depth never reaches the base case: whatever the recursion
    limit, the call ends in [RecursionError]. *)
Lemma koch_curve_points_negative (limit : nat) :
  forall (p1 p2 : point F) (depth : Z),
    (depth < 0)%Z -> koch_curve_points limit p1 p2 depth = Raise RecursionError.
Proof.
  induction limit as [|limit IH]; intros p1 p2 depth Hd; [reflexivity|].
  cbn [koch_curve_points].
  destruct (Z.eqb_spec depth 0) as [->|Hne]; [lia|].
  rewrite (IH p1 _ (depth - 1)%Z) by lia. reflexivity.
Qed.
End KochFacts.

(** C1, as the specification words it, fails at depth 1: the subdivision of
    a segment has 5 points there, not [3 ^ 1 + 1 = 4]. *)
Lemma koch_depth_1_has_5_points :
  exists pts,
    koch_curve_points 1000 (0, 0)%float (3, 0)%float 1 = Ok pts /\
    Z.of_nat (length pts) = 5%Z /\
    Z.of_nat (length pts) <> (3 ^ 1 + 1)%Z.
Proof.
  eexists. split; [vm_compute; reflexivity|]. split; [reflexivity|discriminate].
Qed.

(** C1, amended: for every pair of endpoints and every depth [d >= 0] within
    the recursion limit, the Koch subdivider returns a sequence of exactly
    [4 ^ d + 1] points whose first point is [p1] and whose last point is
    [p2], both exactly; at depth 0 it is the two-element sequence
    [[p1; p2]]. *)
Theorem koch_curve_points_length_endpoints
    {F : Type} `{Scalar F} `{Sqrt F}
    (limit : nat) (p1 p2 : point F) (depth : Z) :
  (0 <= depth < Z.of_nat limit)%Z ->
  exists pts,
    koch_curve_points limit p1 p2 depth = Ok pts /\
    Z.of_nat (length pts) = (4 ^ depth + 1)%Z /\
    head pts = Some p1 /\ last pts = Some p2 /\
    (depth = 0%Z -> pts = [p1; p2]).
Proof.
  intros Hd.
  destruct (koch_curve_points_shape limit p1 p2 depth Hd) as (pts & E & L & Hh & Hl).
  exists pts. repeat split; try assumption.
  intros ->. destruct limit; [lia|].
  rewrite koch_curve_points_base in E. congruence.
Qed.

Lemma koch_curve_points_length_endpoints_witness :
  exists pts,
    koch_curve_points 1000 (-1.5, 0)%float (1.5, 0)%float 5 = Ok pts /\
    Z.of_nat (length pts) = (4 ^ 5 + 1)%Z /\
    head pts = Some (-1.5, 0)%float /\ last pts = Some (1.5, 0)%float /\
    (5%Z = 0%Z -> pts = [(-1.5, 0)%float; (1.5, 0)%float]).
Proof.
  apply (koch_curve_points_length_endpoints 1000 (-1.5, 0)%float (1.5, 0)%float 5).
  lia.
Defined.

(** C6: the subdivision of the segment from (0,0) to (3,0) at depth 1 is
    (0,0), (1,0), (1.5, sqrt(3)/2), (2,0), (3,0), exactly, in binary64; the
    apex is the first division point plus [base/3] rotated by [rot], and its
    ordinate is [sqrt(3)/2] to within 1e-15 (its double squared is within
    1e-15 of 3). *)
Theorem koch_depth_1_points :
  koch_curve_points 1000 (0, 0)%float (3, 0)%float 1
  = Ok [(0, 0); (1, 0); (1.5, PrimFloat.sqrt 3 / 2); (2, 0); (3, 0)]%float /\
  vadd (1, 0)%float (dot rot (vdiv (vsub (3, 0) (0, 0)) 3))%float
  = (1.5, PrimFloat.sqrt 3 / 2)%float /\
  (rot (F:=float)).1.1 = 0.5%float /\
  (rot (F:=float)).2.1 = (PrimFloat.sqrt 3 / 2)%float /\
  exists y : Q,
    float_to_Q (PrimFloat.sqrt 3 / 2)%float = Some y /\
    (0 < y)%Q /\
    (3 - (1 # 1000000000000000) < (2 * y) * (2 * y) < 3 + (1 # 1000000000000000))%Q.
Proof.
  split; [vm_compute; reflexivity|].
  split; [vm_compute; reflexivity|].
  split; [reflexivity|].
  split; [reflexivity|].
  eexists. split; [vm_compute; reflexivity|].
  split; [reflexivity|]. split; vm_compute; reflexivity.
Qed.

(** ** Weighted selection *)

Section SelectionFacts.
Context {F G : Type} `{Scalar F} `{RandomSource F G}.

Lemma length_cumulative_weights (ts : list (transformation F)) :
  forall acc, length (cumulative_weights acc ts) = length ts.
Proof.
  induction ts as [|t ts IH]; intros acc; simpl; [|rewrite IH]; reflexivity.
Qed.

(** the loop of [choose_transformation] finds the first cumulative weight
    that reaches [r] *)
Lemma scan_list_find (r : F) (ts : list (transformation F)) :
  forall acc,
    scan r acc ts
    = match list_find (fun c => fleb r c = true) (cumulative_weights acc ts) with
      | Some (k, _) => ts !! k
      | None => None
      end.
Proof.
  induction ts as [|t ts IH]; intros acc; [reflexivity|].
  cbn [scan cumulative_weights list_find].
  destruct (fleb r (fadd acc (t_prob t))) eqn:E.
  - rewrite decide_True by reflexivity. reflexivity.
  - rewrite decide_False by discriminate.
    rewrite IH.
    destruct (list_find _ (cumulative_weights _ ts)) as [[k c]|]; reflexivity.
Qed.

Lemma scan_elem_of (r : F) (ts : list (transformation F)) :
  forall acc t, scan r acc ts = Some t -> t ∈ ts.
Proof.
  induction ts as [|t' ts IH]; intros acc t; [discriminate|].
  cbn [scan]. destruct (fleb r (fadd acc (t_prob t'))).
  - intros [= ->]. left.
  - intros Hs. right. eapply IH, Hs.
Qed.

Lemma choose_transformation_ok (ts : list (transformation F)) (g : G) :
  ts <> [] ->
  exists t, choose_transformation ts g = (Ok t, (random_random g).2) /\ t ∈ ts.
Proof.
  intros Hne. unfold choose_transformation.
  destruct (random_random g) as [r g']. cbn [snd].
  destruct (scan r (f_of_Z 0) ts) as [t|] eqn:Es.
  - exists t. split; [reflexivity|]. eapply scan_elem_of, Es.
  - destruct (last ts) as [t|] eqn:El.
    + exists t. split; [reflexivity|]. apply last_Some_elem_of, El.
    + apply last_None in El. contradiction.
Qed.
End SelectionFacts.

(** On the table of the script: a draw of 0.5 selects the second transform
    (0.01 < 0.5 <= 0.86), a draw of 0 the first. *)
Example choose_transformation_fern :
  (choose_transformation transformations (Replay [2 ^ 52]%Z)).1
  = Ok {| t_matrix := ((0.85, 0.04), (-0.04, 0.85));
          t_offset := (0.0, 1.6); t_prob := 0.85 |}%float /\
  (choose_transformation transformations (Replay [0]%Z)).1
  = Ok {| t_matrix := ((0.0, 0.0), (0.0, 0.16));
          t_offset := (0.0, 0.0); t_prob := 0.01 |}%float.
Proof. split; vm_compute; reflexivity. Qed.

(** C2: weighted selection takes one draw [r] from the random source, scans
    the transforms in table order accumulating their weights, and returns
    the first transform whose cumulative weight is >= r; when [r] exceeds
    every cumulative weight it returns the last transform of the table,
    which is not an error.  (That [r] is uniform on [0,1) is a property of
    the random source, not of the selection.) *)
Theorem choose_transformation_first_reaching
    {F G : Type} `{Scalar F} `{RandomSource F G}
    (ts : list (transformation F)) (g : G) :
  let r := (random_random g).1 in
  let g' := (random_random g).2 in
  let cw := cumulative_weights (f_of_Z 0) ts in
  choose_transformation ts g
  = (match select_first_reaching r ts with
     | Some t => Ok t
     | None => Raise IndexError
     end, g') /\
  (forall k c t,
      cw !! k = Some c -> ts !! k = Some t ->
      fleb r c = true ->
      (forall j c', (j < k)%nat -> cw !! j = Some c' -> fleb r c' = false) ->
      choose_transformation ts g = (Ok t, g')) /\
  (forall t,
      last ts = Some t ->
      (forall j c', cw !! j = Some c' -> fleb r c' = false) ->
      choose_transformation ts g = (Ok t, g')).
Proof.
  intros r g' cw.
  assert (E : choose_transformation ts g
              = (match select_first_reaching r ts with
                 | Some t => Ok t
                 | None => Raise IndexError
                 end, g')).
  { unfold choose_transformation, select_first_reaching. subst r g'.
    destruct (random_random g) as [r g']. cbn [fst snd].
    rewrite scan_list_find.
    destruct (list_find _ _) as [[k c]|] eqn:Ef.
    - apply list_find_Some in Ef as (Hk & _ & _).
      apply lookup_lt_Some in Hk. rewrite length_cumulative_weights in Hk.
      destruct (lookup_lt_is_Some_2 ts k Hk) as [t ->]. reflexivity.
    - unfold lift. destruct (last ts); reflexivity. }
  split; [exact E|]. split.
  - intros k c t Hc Ht Hr Hfirst. rewrite E. unfold select_first_reaching.
    fold cw.
    assert (Ef : list_find (fun c => fleb r c = true) cw = Some (k, c)).
    { apply list_find_Some. split; [exact Hc|]. split; [exact Hr|].
      intros j y Hy Hj. rewrite (Hfirst j y Hj Hy). discriminate. }
    rewrite Ef, Ht. reflexivity.
  - intros t Hl Hnone. rewrite E. unfold select_first_reaching. fold cw.
    assert (Ef : list_find (fun c => fleb r c = true) cw = None).
    { apply list_find_None, Forall_lookup. intros j y Hy.
      rewrite (Hnone j y Hy). discriminate. }
    rewrite Ef, Hl. reflexivity.
Qed.

(** C10: [choose_transformation] is total on every non-empty transform list:
    whatever the draw and whatever the weights (summing to 1 or not), it
    returns an element of the list and does not raise. *)
Theorem choose_transformation_total
    {F G : Type} `{Scalar F} `{RandomSource F G}
    (ts : list (transformation F)) (g : G) :
  ts <> [] ->
  exists t g', choose_transformation ts g = (Ok t, g') /\ t ∈ ts.
Proof.
  intros Hne. destruct (choose_transformation_ok ts g Hne) as (t & E & Hin).
  exists t, (random_random g).2. split; assumption.
Qed.

Lemma choose_transformation_total_witness :
  exists t g',
    choose_transformation transformations (lcg_seed 42) = (Ok t, g') /\
    t ∈ transformations.
Proof.
  apply (choose_transformation_total transformations
           (lcg_seed 42)).
  discriminate.
Defined.

(** ** The samplers *)

Section SamplerFacts.
Context {F G : Type} `{Scalar F} `{RandomSource F G}.

Lemma animate_barnsley_chain (ts : list (transformation F)) (count : Z) :
  animate_barnsley ts count
  = chain_run (choose_transformation ts) apply_transformation
      (f_of_Z 0, f_of_Z 0) (f_of_Z 0, f_of_Z 0) count.
Proof. reflexivity. Qed.

Lemma animate_sierpinski_chain (A : point F) (vs : list (point F)) (count : Z) :
  animate_sierpinski (A :: vs) count
  = chain_run (random_choice (A :: vs))
      (fun current chosen => vdiv (vadd current chosen) (f_of_Z 2))
      (f_of_Z 0, f_of_Z 0) A count.
Proof. reflexivity. Qed.

(** [random.choice] on a non-empty sequence returns the element at the
    index the source draws below its length *)
Lemma random_choice_ok (vs : list (point F)) (g : G) :
  vs <> [] ->
  exists v,
    vs !! (randbelow (length vs) g).1 = Some v /\
    random_choice vs g = (Ok v, (randbelow (length vs) g).2).
Proof.
  intros Hne.
  pose proof (randbelow_lt (length vs) g) as Hlt.
  destruct vs as [|v0 vs]; [contradiction|].
  specialize (Hlt ltac:(simpl; lia)).
  unfold random_choice, getitem, lift.
  destruct (randbelow (length (v0 :: vs)) g) as [k g']. cbn [fst snd] in *.
  destruct (lookup_lt_is_Some_2 (v0 :: vs) k Hlt) as [v Hv].
  exists v. rewrite Hv. split; reflexivity.
Qed.

Lemma random_choice_elem_of (vs : list (point F)) (g g' : G) (v : point F) :
  random_choice vs g = (Ok v, g') -> v ∈ vs.
Proof.
  destruct vs as [|v0 vs]; [discriminate|].
  destruct (random_choice_ok (v0 :: vs) g ltac:(discriminate)) as (w & Hw & ->).
  intros [= -> _]. eapply list_elem_of_lookup_2, Hw.
Qed.
End SamplerFacts.

(** C3: for every non-empty transform table (every valid table is one) and
    every count >= 1, the Barnsley sampler returns exactly [count] points,
    the point at index 0 is (0,0), and for every index i in [1, count) the
    point at index i is M.p + offset, where p is the point at index i-1 and
    (M, offset) belong to the transform of the table that weighted selection
    draws at step i. *)
Theorem animate_barnsley_points
    {F G : Type} `{Scalar F} `{RandomSource F G}
    (ts : list (transformation F)) (count : Z) (g : G) :
  ts <> [] -> (1 <= count)%Z ->
  exists pts g',
    animate_barnsley ts count g = (Ok pts, g') /\
    Z.of_nat (length pts) = count /\
    pts !! 0%nat = Some (f_of_Z 0, f_of_Z 0) /\
    forall i, (1 <= i < length pts)%nat ->
      exists p t,
        pts !! (i - 1)%nat = Some p /\
        draw_list (choose_transformation ts) (length pts - 1) g !! (i - 1)%nat = Some t /\
        t ∈ ts /\
        pts !! i = Some (vadd (dot (t_matrix t) p) (t_offset t)).
Proof.
  intros Hne Hc. rewrite animate_barnsley_chain.
  destruct (chain_run_ok (choose_transformation ts) apply_transformation
              (fun g => ltac:(destruct (choose_transformation_ok ts g Hne) as (t & E & _);
                              exact (ex_intro _ t (ex_intro _ _ E))))
              (f_of_Z 0, f_of_Z 0) (f_of_Z 0, f_of_Z 0) count g Hc)
    as (pts & g' & E & Hlen & H0' & _ & Hstep).
  exists pts, g'. repeat split; try assumption.
  intros i Hi. destruct (Hstep i Hi) as (p & t & Hp & Ht & Hpi).
  exists p, t. repeat split; try assumption.
  assert (HF : Forall (fun t => t ∈ ts)
                 (draw_list (choose_transformation ts) (length pts - 1) g)).
  { apply draw_list_Forall. intros g0 x g0' E0.
    destruct (choose_transformation_ok ts g0 Hne) as (t' & E' & Hin).
    rewrite E' in E0. inversion E0; subst. exact Hin. }
  eapply Forall_lookup_1 in HF; [exact HF|exact Ht].
Qed.

Lemma animate_barnsley_points_witness :
  exists pts g',
    animate_barnsley transformations 5 (lcg_seed 42)
    = (Ok pts, g') /\
    Z.of_nat (length pts) = 5%Z /\
    pts !! 0%nat = Some (f_of_Z 0, f_of_Z 0) /\
    forall i, (1 <= i < length pts)%nat ->
      exists p t,
        pts !! (i - 1)%nat = Some p /\
        draw_list (choose_transformation transformations) (length pts - 1)
          (lcg_seed 42) !! (i - 1)%nat = Some t /\
        t ∈ transformations /\
        pts !! i = Some (vadd (dot (t_matrix t) p) (t_offset t)).
Proof.
  apply (animate_barnsley_points transformations 5
           (lcg_seed 42)).
  - discriminate.
  - lia.
Defined.

(** C4: for every 3-element vertex sequence and every count >= 1, the
    Sierpinski sampler returns exactly [count] points, the point at index 0
    is [vertices[0]], and every later point is (current + chosen) / 2, where
    current is the previously stored point and chosen is the vertex that
    [random.choice] draws at that step: the vertex at the index the random
    source draws below 3.  (That the index is uniform is a property of the
    random source.) *)
Theorem animate_sierpinski_points
    {F G : Type} `{Scalar F} `{RandomSource F G}
    (vertices : list (point F)) (count : Z) (g : G) :
  length vertices = 3%nat -> (1 <= count)%Z ->
  exists pts g',
    animate_sierpinski vertices count g = (Ok pts, g') /\
    Z.of_nat (length pts) = count /\
    pts !! 0%nat = vertices !! 0%nat /\
    (forall i, (1 <= i < length pts)%nat ->
       exists current chosen,
         pts !! (i - 1)%nat = Some current /\
         draw_list (random_choice vertices) (length pts - 1) g !! (i - 1)%nat
           = Some chosen /\
         chosen ∈ vertices /\
         pts !! i = Some (vdiv (vadd current chosen) (f_of_Z 2))) /\
    (forall g0, exists chosen,
       vertices !! (randbelow 3 g0).1 = Some chosen /\
       random_choice vertices g0 = (Ok chosen, (randbelow 3 g0).2)).
Proof.
  intros Hv Hc.
  destruct vertices as [|A vs]; [discriminate|].
  assert (Hne : A :: vs <> []) by discriminate.
  rewrite animate_sierpinski_chain.
  destruct (chain_run_ok (random_choice (A :: vs))
              (fun current chosen => vdiv (vadd current chosen) (f_of_Z 2))
              (fun g => ltac:(destruct (random_choice_ok (A :: vs) g Hne) as (v & _ & E);
                              exact (ex_intro _ v (ex_intro _ _ E))))
              (f_of_Z 0, f_of_Z 0) A count g Hc)
    as (pts & g' & E & Hlen & H0' & _ & Hstep).
  exists pts, g'. split; [exact E|]. split; [exact Hlen|]. split; [exact H0'|]. split.
  - intros i Hi. destruct (Hstep i Hi) as (p & x & Hp & Hx & Hpi).
    exists p, x. repeat split; try assumption.
    assert (HF : Forall (fun v => v ∈ A :: vs)
                   (draw_list (random_choice (A :: vs)) (length pts - 1) g)).
    { apply draw_list_Forall. intros g0 x0 g0' E0.
      eapply random_choice_elem_of, E0. }
    eapply Forall_lookup_1 in HF; [exact HF|exact Hx].
  - intros g0. rewrite <- Hv. apply random_choice_ok, Hne.
Qed.

Lemma animate_sierpinski_points_witness :
  exists pts g',
    animate_sierpinski (F := float) triangle 5
      (lcg_seed 42) = (Ok pts, g') /\
    Z.of_nat (length pts) = 5%Z /\
    pts !! 0%nat = triangle !! 0%nat /\
    (forall i, (1 <= i < length pts)%nat ->
       exists current chosen,
         pts !! (i - 1)%nat = Some current /\
         draw_list (random_choice triangle) (length pts - 1)
           (lcg_seed 42) !! (i - 1)%nat
           = Some chosen /\
         chosen ∈ triangle /\
         pts !! i = Some (vdiv (vadd current chosen) (f_of_Z 2))) /\
    (forall g0 : lcg, exists chosen,
       triangle (F := float) !! (randbelow (F := float) 3 g0).1 = Some chosen /\
       random_choice (F := float) triangle g0
       = (Ok chosen, (randbelow (F := float) 3 g0).2)).
Proof.
  apply (@animate_sierpinski_points float lcg float_scalar lcg_source
           triangle 5 (lcg_seed 42)).
  - reflexivity.
  - lia.
Defined.

(** ** The triangle contains the exact orbit *)

Section Hull.
Variables A B C : point Q.

Lemma in_hull_vertex (v : point Q) : v ∈ [A; B; C] -> in_hull A B C v.
Proof.
  rewrite !elem_of_cons, elem_of_nil. intros [->|[->|[->|[]]]].
  - exists 1%Q, 0%Q, 0%Q. repeat split; try discriminate; ring.
  - exists 0%Q, 1%Q, 0%Q. repeat split; try discriminate; ring.
  - exists 0%Q, 0%Q, 1%Q. repeat split; try discriminate; ring.
Qed.

(** the midpoint of two points of the hull is in the hull *)
Lemma in_hull_midpoint (p q : point Q) :
  in_hull A B C p -> in_hull A B C q ->
  in_hull A B C (vdiv (vadd p q) (f_of_Z 2)).
Proof.
  intros (a & b & c & Ha & Hb & Hc & Hs & Hx & Hy)
         (a' & b' & c' & Ha' & Hb' & Hc' & Hs' & Hx' & Hy').
  exists ((a + a') / 2)%Q, ((b + b') / 2)%Q, ((c + c') / 2)%Q.
  unfold vdiv, vadd. cbn [fst snd fdiv fadd f_of_Z Q_scalar].
  change (inject_Z 2) with 2%Q.
  repeat split.
  - apply Qle_shift_div_l; [reflexivity|]. lra.
  - apply Qle_shift_div_l; [reflexivity|]. lra.
  - apply Qle_shift_div_l; [reflexivity|]. lra.
  - setoid_replace ((a + a') / 2 + (b + b') / 2 + (c + c') / 2)%Q
      with ((a + b + c + (a' + b' + c')) / 2)%Q using relation Qeq by field.
    rewrite Hs, Hs'. reflexivity.
  - rewrite Hx, Hx'. field.
  - rewrite Hy, Hy'. field.
Qed.

Lemma orbit_in_hull (xs : list (point Q)) :
  forall p,
    in_hull A B C p ->
    Forall (fun v => v ∈ [A; B; C]) xs ->
    Forall (in_hull A B C)
      (orbit (fun current chosen => vdiv (vadd current chosen) (f_of_Z 2)) p xs).
Proof.
  induction xs as [|x xs IH]; intros p Hp Hxs; simpl; [constructor|].
  inversion Hxs as [|? ? Hx Hxs']; subst.
  assert (Hq : in_hull A B C (vdiv (vadd p x) (f_of_Z 2))).
  { apply in_hull_midpoint; [exact Hp|apply in_hull_vertex, Hx]. }
  constructor; [exact Hq|apply IH; assumption].
Qed.
End Hull.

(** C5, as the specification words it, fails in the arithmetic of the
    script: from [A = (0,0)], one step towards [B = (2,4)] and 1075 steps
    towards [A] halve (1, 2) down to (2^-1074, 2^-1073) and then, the
    abscissa rounding to zero, to (0, 2^-1074), which is outside the
    triangle. *)
Lemma sierpinski_float_point_outside_hull :
  exists pts g',
    animate_sierpinski (F := float) triangle 1077
      (Replay (1%Z :: replicate (Z.to_nat 1075) 0%Z)) = (Ok pts, g') /\
    pts !! 0%nat = Some (0, 0)%float /\
    pts !! 1%nat = Some (1, 2)%float /\
    pts !! 2%nat = Some (0.5, 1)%float /\
    pts !! Z.to_nat 1075 = Some (0x1p-1074, 0x1p-1073)%float /\
    pts !! Z.to_nat 1076 = Some (0, 0x1p-1074)%float /\
    point_to_Q (0, 0x1p-1074)%float = Some (0, 1 # 2 ^ 1074)%Q /\
    (point_to_Q <$> triangle) = [Some (0, 0); Some (2, 4); Some (4, 0)]%Q /\
    ~ in_hull (0, 0)%Q (2, 4)%Q (4, 0)%Q (0, 1 # 2 ^ 1074)%Q.
Proof.
  eexists _, _. split; [vm_compute; reflexivity|].
  do 7 (split; [vm_compute; reflexivity|]).
  assert (Hy : (0 < 1 # 2 ^ 1074)%Q) by reflexivity.
  generalize dependent (1 # 2 ^ 1074)%Q. intros y Hy.
  intros (a & b & c & Ha & Hb & Hc & Hs & Hx & Hyy).
  cbn [fst snd] in Hx, Hyy. lra.
Qed.

(** C5, amended: in exact arithmetic, for every triangle, every count >= 1
    and every run of the Sierpinski sampler, every generated point (the
    first included) lies within the convex hull of the three vertices. *)
Theorem animate_sierpinski_in_hull_exact
    {G : Type} `{RandomSource Q G}
    (A B C : point Q) (count : Z) (g : G) :
  (1 <= count)%Z ->
  exists pts g',
    animate_sierpinski [A; B; C] count g = (Ok pts, g') /\
    Z.of_nat (length pts) = count /\
    forall i p, pts !! i = Some p -> in_hull A B C p.
Proof.
  intros Hc. rewrite animate_sierpinski_chain.
  assert (Hne : [A; B; C] <> []) by discriminate.
  destruct (chain_run_ok (random_choice [A; B; C])
              (fun current chosen => vdiv (vadd current chosen) (f_of_Z 2))
              (fun g => ltac:(destruct (random_choice_ok [A; B; C] g Hne) as (v & _ & E);
                              exact (ex_intro _ v (ex_intro _ _ E))))
              (f_of_Z 0, f_of_Z 0) A count g Hc)
    as (pts & g' & E & Hlen & _ & Hlook & _).
  exists pts, g'. split; [exact E|]. split; [exact Hlen|].
  intros i p Hp.
  rewrite Hlook in Hp by (eapply lookup_lt_Some, Hp).
  assert (HA : in_hull A B C A) by (apply in_hull_vertex; left).
  destruct i as [|i]; simpl in Hp.
  - inversion Hp; subst. exact HA.
  - eapply Forall_lookup_1; [|exact Hp].
    apply orbit_in_hull; [exact HA|].
    apply draw_list_Forall. intros g0 x g0' E0.
    eapply random_choice_elem_of, E0.
Qed.

Lemma animate_sierpinski_in_hull_exact_witness :
  exists pts g',
    animate_sierpinski (F := Q) [(0, 0); (2, 4); (4, 0)]%Q 1077
      (Replay (1%Z :: replicate (Z.to_nat 1075) 0%Z)) = (Ok pts, g') /\
    Z.of_nat (length pts) = 1077%Z /\
    forall i p, pts !! i = Some p -> in_hull (0, 0)%Q (2, 4)%Q (4, 0)%Q p.
Proof.
  apply (@animate_sierpinski_in_hull_exact replay replay_source
           (0, 0)%Q (2, 4)%Q (4, 0)%Q 1077
           (Replay (1%Z :: replicate (Z.to_nat 1075) 0%Z))).
  lia.
Defined.

(** ** Determinism under a seed *)

Section SameDraws.
Context {G1 G2 D X P : Type}.
Context (raw1 : G1 -> D * G1) (raw2 : G2 -> D * G2).
Context (sel : D -> result X) (step : P -> X -> P).

(** two drawing computations that read one raw draw each and decide on its
    value alone *)
Context (draw1 : rand G1 X) (draw2 : rand G2 X).
Hypothesis draw1_raw : forall g, draw1 g = (sel (raw1 g).1, (raw1 g).2).
Hypothesis draw2_raw : forall g, draw2 g = (sel (raw2 g).1, (raw2 g).2).

Lemma for_each_same_draws (m : nat) :
  forall (a : nat) (s : P * list P) (g1 : G1) (g2 : G2),
    raw_draws raw1 m g1 = raw_draws raw2 m g2 ->
    (for_each (chain_body draw1 step) (seq a m) s g1).1
    = (for_each (chain_body draw2 step) (seq a m) s g2).1.
Proof.
  induction m as [|m IH]; intros a [current points] g1 g2 Hd; [reflexivity|].
  cbn [raw_draws] in Hd. injection Hd as Hd0 Hd.
  cbn [seq for_each]. rand_simpl. unfold chain_body at 1 3. rand_simpl.
  rewrite draw1_raw, draw2_raw, Hd0.
  destruct (sel (raw2 g2).1) as [x|e]; [|reflexivity].
  destruct (setitem points a (step current x)) as [points'|e]; [|reflexivity].
  apply IH, Hd.
Qed.

Lemma chain_run_same_draws (zero start : P) (count : Z) (g1 : G1) (g2 : G2) :
  raw_draws raw1 (Z.to_nat count - 1) g1 = raw_draws raw2 (Z.to_nat count - 1) g2 ->
  (chain_run draw1 step zero start count g1).1
  = (chain_run draw2 step zero start count g2).1.
Proof.
  intros Hd. unfold chain_run, range. rand_simpl.
  destruct (np_zeros zero count) as [points|e]; [|reflexivity].
  destruct (setitem points 0 start) as [points'|e]; [|reflexivity].
  pose proof (for_each_same_draws (Z.to_nat count - 1) 1 (start, points') g1 g2 Hd) as E.
  destruct (for_each (chain_body draw1 step) _ _ g1) as [[s1|e1] g1'],
           (for_each (chain_body draw2 step) _ _ g2) as [[s2|e2] g2'];
    cbn [fst] in E; inversion E; reflexivity.
Qed.
End SameDraws.

(** C7: a seed acts on the samplers only through the draws that the
    generator then yields (the script itself names no seed).  Both samplers
    are deterministic given those draws: two calls with the same table
    (resp. vertices) and the same count, from any two generator states, of
    any two generators, that yield the same [count - 1] draws, have the same
    outcome, point sequence or exception. *)
Theorem samplers_deterministic_under_seed
    {F G1 G2 : Type} `{Scalar F} `{RandomSource F G1} `{RandomSource F G2}
    (ts : list (transformation F)) (vertices : list (point F))
    (count : Z) (g1 : G1) (g2 : G2) :
  raw_draws random_random (Z.to_nat count - 1) g1
  = raw_draws random_random (Z.to_nat count - 1) g2 ->
  raw_draws (randbelow (F := F) (length vertices)) (Z.to_nat count - 1) g1
  = raw_draws (randbelow (F := F) (length vertices)) (Z.to_nat count - 1) g2 ->
  (animate_barnsley ts count g1).1 = (animate_barnsley ts count g2).1 /\
  (animate_sierpinski vertices count g1).1 = (animate_sierpinski vertices count g2).1.
Proof.
  intros Hr Hi. split.
  - rewrite !animate_barnsley_chain.
    apply (chain_run_same_draws random_random random_random
             (fun r => match scan r (f_of_Z 0) ts with
                       | Some t => Ok t
                       | None => match last ts with
                                 | Some t => Ok t
                                 | None => Raise IndexError
                                 end
                       end)); [| |exact Hr].
    + intros g. unfold choose_transformation. destruct (random_random g) as [r g'].
      cbn [fst snd]. destruct (scan r (f_of_Z 0) ts); reflexivity.
    + intros g. unfold choose_transformation. destruct (random_random g) as [r g'].
      cbn [fst snd]. destruct (scan r (f_of_Z 0) ts); reflexivity.
  - destruct vertices as [|A vs]; [reflexivity|].
    rewrite !animate_sierpinski_chain.
    apply (chain_run_same_draws (randbelow (F := F) (length (A :: vs)))
             (randbelow (F := F) (length (A :: vs)))
             (fun i => getitem (A :: vs) i)); [| |exact Hi].
    + intros g. unfold random_choice.
      destruct (randbelow (length (A :: vs)) g) as [i g']. reflexivity.
    + intros g. unfold random_choice.
      destruct (randbelow (length (A :: vs)) g) as [i g']. reflexivity.
Qed.

(** the generator [lcg] seeded with 42, and the tape of its first draws
    replayed, are two sources with the same draws *)
Lemma samplers_deterministic_under_seed_witness :
  (animate_barnsley transformations 5 (lcg_seed 42)).1
  = (animate_barnsley transformations 5
       (Replay (raw_draws lcg_next 4 (lcg_seed 42)))).1 /\
  (animate_sierpinski (F := float) triangle 5 (lcg_seed 42)).1
  = (animate_sierpinski (F := float) triangle 5
       (Replay (raw_draws lcg_next 4 (lcg_seed 42)))).1.
Proof.
  apply (@samplers_deterministic_under_seed float lcg replay
           float_scalar lcg_source replay_source
           transformations triangle 5 (lcg_seed 42)
           (Replay (raw_draws lcg_next 4 (lcg_seed 42)))).
  - vm_compute. reflexivity.
  - vm_compute. reflexivity.
Defined.

(** A second call continues from the state the first one left, with the
    draws that follow, and yields another sequence. *)
Example animate_sierpinski_second_run_differs :
  (animate_sierpinski (F := float) triangle 4 (lcg_seed 42)).1
  = Ok [(0, 0); (1, 2); (0.5, 1); (2.25, 0.5)]%float /\
  (animate_sierpinski (F := float) triangle 4
     (animate_sierpinski (F := float) triangle 4 (lcg_seed 42)).2).1
  <> (animate_sierpinski (F := float) triangle 4 (lcg_seed 42)).1.
Proof. split; [vm_compute; reflexivity|vm_compute; discriminate]. Qed.

(** ** Arguments and tables are not validated *)

(** C8, as the specification words it, fails: a negative depth is not
    detected as an invalid argument.  The subdivider recurses until the
    interpreter's recursion limit stops it, and the exception is that
    limit's [RecursionError], the one a valid depth beyond the limit gets
    as well. *)
Lemma koch_negative_depth_recursion_error :
  koch_curve_points 1000 (0, 0)%float (3, 0)%float (-1) = Raise RecursionError /\
  koch_curve_points 1000 (0, 0)%float (3, 0)%float 1000 = Raise RecursionError /\
  (exists pts, koch_curve_points 1000 (0, 0)%float (3, 0)%float 0 = Ok pts).
Proof.
  split; [vm_compute; reflexivity|].
  split; [vm_compute; reflexivity|].
  eexists. reflexivity.
Qed.

(** C8, amended: the code has no argument validation and no error of its
    own.  A count < 1 makes either sampler raise before any point is
    generated ([IndexError] from the store at index 0 when count = 0,
    [ValueError] from the allocation when count < 0); a negative depth never
    reaches the base case of the Koch subdivider, which ends in
    [RecursionError] whatever the recursion limit; in each case no sequence
    is returned. *)
Theorem invalid_arguments_behaviour
    {F G : Type} `{Scalar F} `{Sqrt F} `{RandomSource F G} :
  (forall ts (g : G),
      animate_barnsley ts 0 g = (Raise IndexError, g)) /\
  (forall ts count (g : G), (count < 0)%Z ->
      animate_barnsley ts count g = (Raise ValueError, g)) /\
  (forall v vs (g : G),
      animate_sierpinski (v :: vs) 0 g = (Raise IndexError, g)) /\
  (forall v vs count (g : G), (count < 0)%Z ->
      animate_sierpinski (v :: vs) count g = (Raise ValueError, g)) /\
  (forall limit (p1 p2 : point F) depth, (depth < 0)%Z ->
      koch_curve_points limit p1 p2 depth = Raise RecursionError).
Proof.
  split; [intros; rewrite animate_barnsley_chain; apply chain_run_zero|].
  split; [intros; rewrite animate_barnsley_chain; apply chain_run_negative; assumption|].
  split; [intros; rewrite animate_sierpinski_chain; apply chain_run_zero|].
  split; [intros; rewrite animate_sierpinski_chain; apply chain_run_negative; assumption|].
  intros; apply koch_curve_points_negative; assumption.
Qed.

(** C9, as the specification words it, fails: a table whose only transform
    has weight -1 (not positive, total not 1) is not rejected; selection
    falls back on it and the sampler runs. *)
Lemma negative_weight_table_accepted :
  choose_transformation negative_weight_table (Replay [0; 0]%Z)
  = (Ok {| t_matrix := ((0.5, 0), (0, 0.5)); t_offset := (1, 1); t_prob := -1 |}%float,
     Replay [0%Z]) /\
  animate_barnsley negative_weight_table 3 (Replay [0; 0]%Z)
  = (Ok [(0, 0); (1, 1); (1.5, 1.5)]%float, Replay []).
Proof.
  split; vm_compute; reflexivity.
Qed.

(** C9, amended: the transform table is a list literal and nothing
    validates it.  The table of the script has four transforms, each weight
    is positive, and the weights add up (in table order, in binary64) to
    exactly 1.0; but a table that breaks these conditions is not rejected:
    selection returns a transform of every non-empty table, falling back on
    the last one, and an empty table raises [IndexError] only when a
    transform is drawn from it. *)
Theorem transformations_table_unvalidated {G : Type} `{RandomSource float G} :
  length transformations = 4%nat /\
  Forall (fun t => PrimFloat.ltb 0 (t_prob t) = true) transformations /\
  cumulative_weights 0%float transformations
  = [0.01; 0.01 + 0.85; 0.01 + 0.85 + 0.07; 1]%float /\
  (forall (ts : list (transformation float)) (g : G),
      ts = [] \/ exists t g', choose_transformation ts g = (Ok t, g') /\ t ∈ ts) /\
  (forall g : G,
      choose_transformation (F := float) [] g = (Raise IndexError, (random_random g).2)).
Proof.
  split; [reflexivity|].
  split; [repeat constructor|].
  split; [vm_compute; reflexivity|].
  split.
  - intros ts g. destruct ts as [|t ts]; [left; reflexivity|right].
    destruct (choose_transformation_ok (t :: ts) g ltac:(discriminate)) as (t' & E & Hin).
    exists t', (random_random g).2. split; assumption.
  - intros g. unfold choose_transformation. destruct (random_random g). reflexivity.
Qed.


(** * Further properties of the code *)

(** ** The frames of the sampler animations *)

Lemma elem_of_frames (n : nat) (frame : Z) :
  (0 <= frame < Z.of_nat n)%Z -> frame ∈ (Z.of_nat <$> seq 0 n).
Proof.
  intros Hf. apply list_elem_of_fmap. exists (Z.to_nat frame).
  split; [lia|]. apply elem_of_seq. lia.
Qed.

Lemma slice_to_nonneg {A} (l : list A) (k : Z) :
  (0 <= k)%Z -> slice_to l k = take (Z.to_nat k) l.
Proof.
  intros Hk. unfold slice_to. destruct (Z.ltb_spec k 0); [lia|reflexivity].
Qed.

(** a check of [int(frame / total_frames * num_points)] over a list of
    frames, by evaluation *)
Definition trunc_agrees {F} `{Scalar F} `{Trunc F}
    (total_frames num_points : Z) (expected : Z -> Z) (frame : Z) : bool :=
  match ftrunc (fmul (fdiv (f_of_Z frame) (f_of_Z total_frames)) (f_of_Z num_points)) with
  | Some k => (k =? expected frame)%Z
  | None => false
  end.

Lemma trunc_agrees_update_rows {F} `{Scalar F} `{Trunc F} {P}
    (total_frames num_points : Z) (expected : Z -> Z) (frames : list Z)
    (points : list P) (frame : Z) :
  forallb (trunc_agrees total_frames num_points expected) frames = true ->
  frame ∈ frames ->
  update_rows total_frames points num_points frame
  = Some (slice_to points (Z.min num_points (expected frame))).
Proof.
  intros Hall Hin. rewrite forallb_forall in Hall.
  specialize (Hall frame (proj1 (list_elem_of_In _ _) Hin)).
  unfold trunc_agrees in Hall. unfold update_rows.
  destruct (ftrunc _) as [k|]; [|discriminate].
  apply Z.eqb_eq in Hall. subst k. reflexivity.
Qed.

(** X1: in binary64, frame [f] of the fern animation shows the first
    [1000 * f] points, one point fewer at the frames 29, 57, 58 and 113 to
    116 (where [f / 200 * 200000] rounds below [1000 * f]), and all the
    200000 points from frame 200 to the last frame, 499. *)
Theorem barnsley_update_rows {P} (points : list P) (frame : Z) :
  (0 <= frame < 500)%Z ->
  barnsley_update (F := float) points 200000 frame
  = Some (take (Z.to_nat (if bool_decide (frame ∈ [29; 57; 58; 113; 114; 115; 116]%Z)
                          then 1000 * frame - 1
                          else Z.min 200000 (1000 * frame))) points).
Proof.
  intros Hf. unfold barnsley_update.
  set (below := [29; 57; 58; 113; 114; 115; 116; 201; 203; 205; 207; 226; 228;
                 230; 232; 251; 253; 255; 257; 402; 406; 410; 414; 427; 431;
                 435; 439; 452; 456; 460; 464; 477; 481; 485; 489]%Z).
  rewrite (trunc_agrees_update_rows 200 200000
             (fun f => if bool_decide (f ∈ below) then 1000 * f - 1 else 1000 * f)%Z
             barnsley_frames points frame);
    [|vm_compute; reflexivity|apply (elem_of_frames 500); lia].
  subst below.
  rewrite slice_to_nonneg
    by (case_bool_decide; rewrite ?elem_of_cons, ?elem_of_nil in *; lia).
  do 2 f_equal.
  repeat case_bool_decide; rewrite ?elem_of_cons, ?elem_of_nil in *; lia.
Qed.

Lemma barnsley_update_rows_witness :
  barnsley_update (F := float) (replicate (Z.to_nat 200000) tt) 200000 29
  = Some (take (Z.to_nat (if bool_decide (29%Z ∈ [29; 57; 58; 113; 114; 115; 116]%Z)
                          then 1000 * 29 - 1
                          else Z.min 200000 (1000 * 29))) (replicate (Z.to_nat 200000) tt)).
Proof.
  apply (barnsley_update_rows (replicate (Z.to_nat 200000) tt) 29). lia.
Defined.

(** X2: in binary64, frame [f] of the triangle animation shows the first
    [300 * f] points: the animation has the frames 0 to 99, so that it ends
    on 29700 of the 30000 points and never shows the last 300. *)
Theorem sierpinski_update_rows {P} (points : list P) (frame : Z) :
  (0 <= frame < 100)%Z ->
  sierpinski_update (F := float) points 30000 frame
  = Some (take (Z.to_nat (300 * frame)) points) /\
  (300 * frame <= 29700)%Z.
Proof.
  intros Hf. split; [|lia]. unfold sierpinski_update.
  rewrite (trunc_agrees_update_rows 100 30000 (fun f => 300 * f)%Z
             sierpinski_frames points frame);
    [|vm_compute; reflexivity|apply (elem_of_frames 100); lia].
  rewrite slice_to_nonneg by lia. do 2 f_equal. lia.
Qed.

Lemma sierpinski_update_rows_witness :
  sierpinski_update (F := float) (replicate (Z.to_nat 30000) tt) 30000 99
  = Some (take (Z.to_nat (300 * 99)) (replicate (Z.to_nat 30000) tt)) /\
  (300 * 99 <= 29700)%Z.
Proof.
  apply (sierpinski_update_rows (replicate (Z.to_nat 30000) tt) 99). lia.
Defined.

(** ** The levels of the Koch animation *)

Section KochLevelsFacts.
Context {F : Type} `{Scalar F} `{Sqrt F}.

Lemma koch_levels_loop_ok (limit : nat) (p1 p2 : point F) (depths : list Z) :
  Forall (fun depth => (0 <= depth < Z.of_nat limit)%Z) depths ->
  forall all_levels,
    exists levels,
      koch_levels_loop limit p1 p2 depths all_levels = Ok (all_levels ++ levels) /\
      Forall2 (fun depth pts => koch_curve_points limit p1 p2 depth = Ok pts)
        depths levels.
Proof.
  induction 1 as [|depth depths Hd _ IH]; intros all_levels; cbn [koch_levels_loop].
  - exists []. rewrite app_nil_r. split; [reflexivity|constructor].
  - destruct (koch_curve_points_shape limit p1 p2 depth Hd) as (pts & E & _).
    rewrite E. cbn. destruct (IH (all_levels ++ [pts])) as (levels & -> & HF).
    exists (pts :: levels). rewrite <- app_assoc. split; [reflexivity|].
    constructor; assumption.
Qed.

(** gluing two polylines that share an endpoint *)
Lemma glue_sublist (c1 c1' c2 c2' : list (point F)) (e : point F) :
  last c1 = Some e -> last c1' = Some e ->
  c1 `sublist_of` c1' -> c2 `sublist_of` c2' ->
  removelast c1 ++ c2 `sublist_of` removelast c1' ++ c2'.
Proof.
  intros H1 H1' Hs1 Hs2.
  apply last_Some in H1 as [l ->]. apply last_Some in H1' as [l' ->].
  rewrite !removelast_last. apply sublist_app; [|exact Hs2].
  eapply sublist_app_inv_r, Hs1.
Qed.

Lemma koch_curve_points_refines (limit : nat) :
  forall (p1 p2 : point F) (depth : Z),
    (0 <= depth)%Z -> (depth + 1 < Z.of_nat limit)%Z ->
    exists pts pts',
      koch_curve_points limit p1 p2 depth = Ok pts /\
      koch_curve_points limit p1 p2 (depth + 1) = Ok pts' /\
      pts `sublist_of` pts'.
Proof.
  induction limit as [|limit IH]; intros p1 p2 depth Hd Hl; [lia|].
  destruct (Z.eq_dec depth 0%Z) as [->|Hne].
  - destruct limit as [|limit]; [lia|].
    eexists _, _. split; [reflexivity|]. split; [reflexivity|].
    cbn [removelast app]. apply sublist_skip.
    do 3 apply sublist_cons. reflexivity.
  - cbn [koch_curve_points].
    destruct (Z.eqb_spec depth 0) as [|_]; [contradiction|].
    destruct (Z.eqb_spec (depth + 1) 0) as [|_]; [lia|].
    replace (depth + 1 - 1)%Z with (depth - 1 + 1)%Z by lia.
    set (base := vsub p2 p1).
    set (pA := vadd p1 (vdiv base (f_of_Z 3))).
    set (pB := vadd p1 (vdiv (vscale (f_of_Z 2) base) (f_of_Z 3))).
    set (peak := vadd pA (dot rot (vdiv base (f_of_Z 3)))).
    assert (Hd' : (0 <= depth - 1)%Z) by lia.
    assert (Hl' : (depth - 1 + 1 < Z.of_nat limit)%Z) by lia.
    assert (Hs : (0 <= depth - 1 < Z.of_nat limit)%Z) by lia.
    assert (Hs' : (0 <= depth - 1 + 1 < Z.of_nat limit)%Z) by lia.
    destruct (IH p1 pA _ Hd' Hl') as (c1 & c1' & E1 & E1' & S1).
    destruct (IH pA peak _ Hd' Hl') as (c2 & c2' & E2 & E2' & S2).
    destruct (IH peak pB _ Hd' Hl') as (c3 & c3' & E3 & E3' & S3).
    destruct (IH pB p2 _ Hd' Hl') as (c4 & c4' & E4 & E4' & S4).
    destruct (koch_curve_points_shape limit p1 pA _ Hs) as (? & X1 & _ & _ & L1).
    destruct (koch_curve_points_shape limit p1 pA _ Hs') as (? & X1' & _ & _ & L1').
    destruct (koch_curve_points_shape limit pA peak _ Hs) as (? & X2 & _ & _ & L2).
    destruct (koch_curve_points_shape limit pA peak _ Hs') as (? & X2' & _ & _ & L2').
    destruct (koch_curve_points_shape limit peak pB _ Hs) as (? & X3 & _ & _ & L3).
    destruct (koch_curve_points_shape limit peak pB _ Hs') as (? & X3' & _ & _ & L3').
    rewrite E1 in X1; rewrite E1' in X1'; rewrite E2 in X2; rewrite E2' in X2';
      rewrite E3 in X3; rewrite E3' in X3'.
    inversion X1; inversion X1'; inversion X2; inversion X2';
      inversion X3; inversion X3'; subst.
    rewrite E1, E1', E2, E2', E3, E3', E4, E4'. cbn.
    eexists _, _. split; [reflexivity|]. split; [reflexivity|].
    eapply glue_sublist; [exact L1|exact L1'|exact S1|].
    eapply glue_sublist; [exact L2|exact L2'|exact S2|].
    eapply glue_sublist; [exact L3|exact L3'|exact S3|exact S4].
Qed.

Lemma koch_curve_points_too_deep (limit : nat) :
  forall (p1 p2 : point F) (depth : Z),
    (Z.of_nat limit <= depth)%Z ->
    koch_curve_points limit p1 p2 depth = Raise RecursionError.
Proof.
  induction limit as [|limit IH]; intros p1 p2 depth Hd; [reflexivity|].
  cbn [koch_curve_points].
  destruct (Z.eqb_spec depth 0) as [->|Hne]; [lia|].
  rewrite (IH p1 _ (depth - 1)%Z) by lia. reflexivity.
Qed.

Lemma koch_levels_loop_raises (limit : nat) (p1 p2 : point F) (depths : list Z) :
  Exists (fun depth => (Z.of_nat limit <= depth)%Z) depths ->
  Forall (fun depth => (0 <= depth)%Z) depths ->
  forall all_levels,
    koch_levels_loop limit p1 p2 depths all_levels = Raise RecursionError.
Proof.
  induction depths as [|depth depths IH]; intros Hex Hall all_levels.
  - inversion Hex.
  - cbn [koch_levels_loop]. inversion Hall as [|? ? Hd Hall']; subst.
    destruct (Z_lt_le_dec depth (Z.of_nat limit)) as [Hlt|Hge].
    + destruct (koch_curve_points_shape limit p1 p2 depth (conj Hd Hlt)) as (pts & -> & _).
      cbn. apply IH; [|exact Hall'].
      inversion Hex; subst; [lia|assumption].
    + rewrite koch_curve_points_too_deep by exact Hge. reflexivity.
Qed.
End KochLevelsFacts.

(** X3: the recursion limit is the only way [koch_curve_points] fails, and it
    does so exactly when the depth is negative or needs more nested calls
    than the limit leaves: a call at depth [d >= 0] needs [d + 1] of them. *)
Theorem koch_curve_points_raises_iff
    {F : Type} `{Scalar F} `{Sqrt F}
    (limit : nat) (p1 p2 : point F) (depth : Z) :
  (koch_curve_points limit p1 p2 depth = Raise RecursionError
   <-> (depth < 0 \/ Z.of_nat limit <= depth)%Z) /\
  (raises (koch_curve_points limit p1 p2 depth)
   <-> koch_curve_points limit p1 p2 depth = Raise RecursionError).
Proof.
  assert (Hiff : koch_curve_points limit p1 p2 depth = Raise RecursionError
                 <-> (depth < 0 \/ Z.of_nat limit <= depth)%Z).
  { split.
    - intros E. destruct (Z_lt_le_dec depth 0) as [|Hd]; [left; assumption|].
      destruct (Z_lt_le_dec depth (Z.of_nat limit)) as [Hlt|]; [|right; assumption].
      destruct (koch_curve_points_shape limit p1 p2 depth (conj Hd Hlt)) as (pts & E' & _).
      congruence.
    - intros [Hd|Hd].
      + apply koch_curve_points_negative, Hd.
      + apply koch_curve_points_too_deep, Hd. }
  split; [exact Hiff|]. split.
  - intros [e He].
    destruct (Z_lt_le_dec depth 0) as [|Hd]; [apply Hiff; left; assumption|].
    destruct (Z_lt_le_dec depth (Z.of_nat limit)) as [Hlt|]; [|apply Hiff; right; assumption].
    destruct (koch_curve_points_shape limit p1 p2 depth (conj Hd Hlt)) as (pts & E' & _).
    congruence.
  - intros E. exists RecursionError. exact E.
Qed.

(** X4: [animate_koch] with [max_depth >= 0] within the recursion limit builds
    [max_depth + 1] levels; level [d] is the subdivision at depth [d], with
    [4 ^ d + 1] points from [p1] to [p2], and [update] finds a level for
    every frame in [range(len(all_levels))] and hands over one abscissa and
    one ordinate per point. *)
Theorem animate_koch_levels
    {F : Type} `{Scalar F} `{Sqrt F}
    (limit : nat) (p1 p2 : point F) (max_depth : Z) :
  (0 <= max_depth < Z.of_nat limit)%Z ->
  exists all_levels,
    animate_koch limit p1 p2 max_depth = Ok all_levels /\
    Z.of_nat (length all_levels) = (max_depth + 1)%Z /\
    forall frame, (frame < length all_levels)%nat ->
      exists pts,
        all_levels !! frame = Some pts /\
        koch_curve_points limit p1 p2 (Z.of_nat frame) = Ok pts /\
        Z.of_nat (length pts) = (4 ^ Z.of_nat frame + 1)%Z /\
        head pts = Some p1 /\ last pts = Some p2 /\
        exists xs ys,
          koch_update all_levels frame = Ok (xs, ys) /\
          length xs = length pts /\ length ys = length pts.
Proof.
  intros Hm. unfold animate_koch.
  set (depths := Z.of_nat <$> seq 0 (Z.to_nat (max_depth + 1))).
  assert (Hdepths : Forall (fun depth => (0 <= depth < Z.of_nat limit)%Z) depths).
  { apply Forall_fmap, Forall_forall. intros k Hk%elem_of_seq. simpl. lia. }
  destruct (koch_levels_loop_ok limit p1 p2 depths Hdepths []) as (levels & -> & HF).
  cbn [app]. exists levels. split; [reflexivity|].
  assert (Hlen : length levels = Z.to_nat (max_depth + 1)).
  { rewrite <- (Forall2_length _ _ _ HF). unfold depths.
    rewrite length_fmap, length_seq. reflexivity. }
  split; [lia|].
  intros frame Hframe.
  destruct (lookup_lt_is_Some_2 levels frame Hframe) as [pts Hpts].
  assert (Hd : depths !! frame = Some (Z.of_nat frame)).
  { unfold depths. rewrite list_lookup_fmap, lookup_seq_lt by lia. reflexivity. }
  pose proof (Forall2_lookup_lr _ _ _ _ _ _ HF Hd Hpts) as E. cbn in E.
  destruct (koch_curve_points_shape limit p1 p2 (Z.of_nat frame) ltac:(lia))
    as (pts' & E' & L & Hh & Hl).
  rewrite E in E'. inversion E'; subst pts'.
  exists pts. repeat split; try assumption.
  exists (fst <$> pts), (snd <$> pts). unfold koch_update, getitem. rewrite Hpts.
  rewrite !length_fmap. repeat split.
Qed.

Lemma animate_koch_levels_witness :
  exists all_levels,
    animate_koch 1000 (-1.5, 0)%float (1.5, 0)%float 5 = Ok all_levels /\
    Z.of_nat (length all_levels) = (5 + 1)%Z /\
    forall frame, (frame < length all_levels)%nat ->
      exists pts,
        all_levels !! frame = Some pts /\
        koch_curve_points 1000 (-1.5, 0)%float (1.5, 0)%float (Z.of_nat frame) = Ok pts /\
        Z.of_nat (length pts) = (4 ^ Z.of_nat frame + 1)%Z /\
        head pts = Some (-1.5, 0)%float /\ last pts = Some (1.5, 0)%float /\
        exists xs ys,
          koch_update all_levels frame = Ok (xs, ys) /\
          length xs = length pts /\ length ys = length pts.
Proof.
  apply (animate_koch_levels 1000 (-1.5, 0)%float (1.5, 0)%float 5). lia.
Defined.

(** X5: each level of the Koch animation refines the one before: the points of
    the subdivision at depth [d] are, in order, points of the subdivision
    at depth [d + 1]. *)
Theorem koch_curve_points_refine
    {F : Type} `{Scalar F} `{Sqrt F}
    (limit : nat) (p1 p2 : point F) (depth : Z) :
  (0 <= depth)%Z -> (depth + 1 < Z.of_nat limit)%Z ->
  exists pts pts',
    koch_curve_points limit p1 p2 depth = Ok pts /\
    koch_curve_points limit p1 p2 (depth + 1) = Ok pts' /\
    pts `sublist_of` pts'.
Proof.
  apply koch_curve_points_refines.
Qed.

Lemma koch_curve_points_refine_witness :
  exists pts pts',
    koch_curve_points 1000 (-1.5, 0)%float (1.5, 0)%float 4 = Ok pts /\
    koch_curve_points 1000 (-1.5, 0)%float (1.5, 0)%float (4 + 1) = Ok pts' /\
    pts `sublist_of` pts'.
Proof.
  apply (koch_curve_points_refine 1000 (-1.5, 0)%float (1.5, 0)%float 4); lia.
Defined.

(** X6: [animate_koch] at its edges: a negative [max_depth] builds no level
    (and never calls the subdivider with a negative depth), and a
    [max_depth] beyond the recursion limit raises [RecursionError]: the
    levels already computed are lost. *)
Theorem animate_koch_edges
    {F : Type} `{Scalar F} `{Sqrt F}
    (limit : nat) (p1 p2 : point F) (max_depth : Z) :
  ((max_depth < 0)%Z -> animate_koch limit p1 p2 max_depth = Ok []) /\
  ((Z.of_nat limit <= max_depth)%Z ->
   animate_koch limit p1 p2 max_depth = Raise RecursionError).
Proof.
  split; intros Hm; unfold animate_koch.
  - replace (Z.to_nat (max_depth + 1)) with 0%nat by lia. reflexivity.
  - apply koch_levels_loop_raises.
    + apply Exists_exists. exists max_depth. split; [|exact Hm].
      apply list_elem_of_fmap. exists (Z.to_nat max_depth). split; [lia|].
      apply elem_of_seq. lia.
    + apply Forall_fmap, Forall_forall. intros k _. simpl. lia.
Qed.

(** ** More on the sampling loop *)

Section ChainMore.
Context {G P X : Type} (draw : rand G X) (step : P -> X -> P).

Lemma draw_list_take (m : nat) :
  forall (n : nat) (g : G),
    (m <= n)%nat -> draw_list draw m g = take m (draw_list draw n g).
Proof.
  induction m as [|m IH]; intros n g Hmn; [reflexivity|].
  destruct n as [|n]; [lia|]. cbn [draw_list].
  destruct (draw g) as [[x|e] g']; [|reflexivity].
  cbn [take]. rewrite (IH n) by lia. reflexivity.
Qed.

Lemma orbit_take (xs : list X) :
  forall (m : nat) (p : P), orbit step p (take m xs) = take m (orbit step p xs).
Proof.
  induction xs as [|x xs IH]; intros [|m] p; try reflexivity.
  cbn [take orbit]. rewrite IH. reflexivity.
Qed.

(** the loop leaves the generator where the draws left it *)
Lemma for_each_chain_state (next : G -> G) :
  (forall g, exists x, draw g = (Ok x, next g)) ->
  forall (m a : nat) (current : P) (points : list P) (g : G),
    (a + m <= length points)%nat ->
    exists s,
      for_each (chain_body draw step) (seq a m) (current, points) g
      = (Ok s, Nat.iter m next g).
Proof.
  intros Hnext m. induction m as [|m IH]; intros a current points g Hlen.
  - exists (current, points). reflexivity.
  - cbn [seq for_each]. rand_simpl. unfold chain_body at 1. rand_simpl.
    destruct (Hnext g) as (x & ->).
    unfold setitem. destruct (decide (a < length points)%nat) as [Ha|Ha]; [|lia].
    destruct (IH (S a) (step current x) (<[a:=step current x]> points) (next g))
      as (s & ->); [rewrite length_insert; lia|].
    exists s. rewrite Nat.iter_succ_r. reflexivity.
Qed.

Lemma chain_run_state (next : G -> G) (zero start : P) (count : Z) (g : G) :
  (forall g, exists x, draw g = (Ok x, next g)) ->
  (1 <= count)%Z ->
  (chain_run draw step zero start count g).2 = Nat.iter (Z.to_nat count - 1) next g.
Proof.
  intros Hnext Hc. unfold chain_run, np_zeros, range.
  destruct (Z.ltb_spec count 0) as [|_]; [lia|].
  destruct (Z.to_nat count) as [|n] eqn:En; [lia|].
  rand_simpl. unfold setitem at 1. rewrite length_replicate.
  destruct (decide (0 < S n)%nat) as [_|]; [|lia].
  replace (S n - 1)%nat with n by lia.
  destruct (for_each_chain_state next Hnext n 1 start
              (<[0%nat:=start]> (replicate (S n) zero)) g) as (s & ->);
    [rewrite length_insert, length_replicate; lia|].
  reflexivity.
Qed.

Hypothesis draw_ok : forall g, exists x g', draw g = (Ok x, g').

(** asking for fewer points gives the first points of the longer run *)
Lemma chain_run_prefix (zero start : P) (m n : Z) (g : G) :
  (1 <= m <= n)%Z ->
  exists pts_m pts_n,
    (chain_run draw step zero start m g).1 = Ok pts_m /\
    (chain_run draw step zero start n g).1 = Ok pts_n /\
    pts_m = take (Z.to_nat m) pts_n.
Proof.
  intros Hmn.
  destruct (chain_run_ok draw step draw_ok zero start m g ltac:(lia))
    as (pm & gm & Em & Lm & _ & Hm & _).
  destruct (chain_run_ok draw step draw_ok zero start n g ltac:(lia))
    as (pn & gn & En & Ln & _ & Hn & _).
  exists pm, pn. rewrite Em, En. split; [reflexivity|]. split; [reflexivity|].
  apply list_eq. intros j.
  destruct (decide (j < length pm)%nat) as [Hj|Hj].
  - rewrite lookup_take_lt by lia.
    rewrite Hm, Hn by lia.
    rewrite (draw_list_take (length pm - 1) (length pn - 1)) by lia.
    rewrite orbit_take.
    destruct j as [|j]; [reflexivity|].
    change ((start :: ?l) !! S j) with (l !! j).
    rewrite lookup_take_lt by lia. reflexivity.
  - rewrite lookup_ge_None_2 by lia.
    symmetry. apply lookup_ge_None_2. rewrite length_take. lia.
Qed.
End ChainMore.

(** X7: a shorter run of either sampler from the same generator state yields
    the first points of the longer run: the points do not depend on how
    many are asked for, so that the rows [points[:max_index]] an animation
    frame shows are the run of [max_index] points. *)
Theorem samplers_prefix
    {F G : Type} `{Scalar F} `{RandomSource F G}
    (ts : list (transformation F)) (vertices : list (point F)) (m n : Z) (g : G) :
  ts <> [] -> vertices <> [] -> (1 <= m <= n)%Z ->
  (exists pts_m pts_n,
     (animate_barnsley ts m g).1 = Ok pts_m /\
     (animate_barnsley ts n g).1 = Ok pts_n /\
     pts_m = take (Z.to_nat m) pts_n) /\
  (exists pts_m pts_n,
     (animate_sierpinski vertices m g).1 = Ok pts_m /\
     (animate_sierpinski vertices n g).1 = Ok pts_n /\
     pts_m = take (Z.to_nat m) pts_n).
Proof.
  intros Hts Hvs Hmn. split.
  - rewrite !animate_barnsley_chain. apply chain_run_prefix; [|exact Hmn].
    intros g0. destruct (choose_transformation_ok ts g0 Hts) as (t & E & _).
    exists t, (random_random g0).2. exact E.
  - destruct vertices as [|A vs]; [contradiction|].
    rewrite !animate_sierpinski_chain. apply chain_run_prefix; [|exact Hmn].
    intros g0. destruct (random_choice_ok (A :: vs) g0 Hvs) as (v & _ & E).
    exists v, (randbelow (length (A :: vs)) g0).2. exact E.
Qed.

Lemma samplers_prefix_witness :
  (exists pts_m pts_n,
     (animate_barnsley transformations 3 (lcg_seed 42)).1 = Ok pts_m /\
     (animate_barnsley transformations 7 (lcg_seed 42)).1 = Ok pts_n /\
     pts_m = take (Z.to_nat 3) pts_n) /\
  (exists pts_m pts_n,
     (animate_sierpinski (F := float) triangle 3 (lcg_seed 42)).1 = Ok pts_m /\
     (animate_sierpinski (F := float) triangle 7 (lcg_seed 42)).1 = Ok pts_n /\
     pts_m = take (Z.to_nat 3) pts_n).
Proof.
  apply (@samplers_prefix float lcg float_scalar lcg_source
           transformations triangle 3 7 (lcg_seed 42)).
  - discriminate.
  - discriminate.
  - lia.
Defined.

(** X8: a run of [count >= 1] points advances the generator by exactly
    [count - 1] draws: one [random.random()] per point after the first for
    the fern, whatever the transforms selected, and one index draw below
    the number of vertices per point after the first for the triangle. *)
Theorem samplers_draw_count
    {F G : Type} `{Scalar F} `{RandomSource F G}
    (ts : list (transformation F)) (vertices : list (point F)) (count : Z) (g : G) :
  ts <> [] -> vertices <> [] -> (1 <= count)%Z ->
  (animate_barnsley ts count g).2
  = Nat.iter (Z.to_nat count - 1) (fun g => (random_random g).2) g /\
  (animate_sierpinski vertices count g).2
  = Nat.iter (Z.to_nat count - 1) (fun g => (randbelow (length vertices) g).2) g.
Proof.
  intros Hts Hvs Hc. split.
  - rewrite animate_barnsley_chain. apply chain_run_state; [|exact Hc].
    intros g0. destruct (choose_transformation_ok ts g0 Hts) as (t & E & _).
    exists t. exact E.
  - destruct vertices as [|A vs]; [contradiction|].
    rewrite animate_sierpinski_chain. apply chain_run_state; [|exact Hc].
    intros g0. destruct (random_choice_ok (A :: vs) g0 Hvs) as (v & _ & E).
    exists v. exact E.
Qed.

Lemma samplers_draw_count_witness :
  (animate_barnsley transformations 5 (lcg_seed 42)).2
  = Nat.iter (Z.to_nat 5 - 1) (fun g => (random_random (F := float) g).2) (lcg_seed 42) /\
  (animate_sierpinski (F := float) triangle 5 (lcg_seed 42)).2
  = Nat.iter (Z.to_nat 5 - 1)
      (fun g => (randbelow (F := float) (length (triangle (F := float))) g).2) (lcg_seed 42).
Proof.
  apply (@samplers_draw_count float lcg float_scalar lcg_source
           transformations triangle 5 (lcg_seed 42)).
  - discriminate.
  - discriminate.
  - lia.
Defined.

(** X9: an empty table goes unnoticed as long as no transform is drawn: one
    point is the start alone, and from two points on the first selection
    raises [IndexError], after its draw. *)
Theorem animate_barnsley_empty_table
    {F G : Type} `{Scalar F} `{RandomSource F G} (count : Z) (g : G) :
  (count = 1%Z ->
   animate_barnsley [] count g = (Ok [(f_of_Z 0, f_of_Z 0)], g)) /\
  ((2 <= count)%Z ->
   animate_barnsley [] count g = (Raise IndexError, (random_random g).2)).
Proof.
  split.
  - intros ->. reflexivity.
  - intros Hc. rewrite animate_barnsley_chain. unfold chain_run, np_zeros, range.
    destruct (Z.ltb_spec count 0) as [|_]; [lia|].
    destruct (Z.to_nat count) as [|[|n]] eqn:En; [lia|lia|].
    rand_simpl. unfold setitem at 1. rewrite length_replicate.
    destruct (decide (0 < S (S n))%nat) as [_|]; [|lia].
    cbn [Nat.sub seq for_each]. rand_simpl. unfold chain_body at 1. rand_simpl.
    unfold choose_transformation. destruct (random_random g) as [r g'].
    reflexivity.
Qed.

(** ** The fallback of the selection on the table of the script *)

(** X10: with the table of the script the last cumulative weight is exactly 1.0
    in binary64, so that for every draw [r <= 1.0] (and [random.random()]
    is below 1.0) the loop of [choose_transformation] returns: the selected
    transform is one whose cumulative weight reaches [r], and the fallback
    on the last transform is never what decides. *)
Theorem choose_transformation_fern_in_loop
    {G : Type} `{RandomSource float G} (g : G) :
  PrimFloat.leb (random_random g).1 1 = true ->
  exists k t c,
    transformations !! k = Some t /\
    cumulative_weights 0%float transformations !! k = Some c /\
    PrimFloat.leb (random_random g).1 c = true /\
    scan (random_random g).1 0%float transformations = Some t /\
    choose_transformation transformations g = (Ok t, (random_random g).2).
Proof.
  intros Hr. unfold choose_transformation.
  destruct (random_random g) as [r g']. cbn [fst snd] in *.
  change (f_of_Z 0) with 0%float.
  rewrite scan_list_find.
  assert (Hin : 1%float ∈ cumulative_weights 0%float transformations).
  { vm_compute. do 3 right. left. }
  change (fleb r 1%float = true) in Hr.
  destruct (list_find_elem_of (fun c => fleb r c = true) _ 1%float Hin Hr)
    as [[k c] Ef].
  rewrite Ef. apply list_find_Some in Ef as (Hk & Hc & _).
  assert (Hlt : (k < length transformations)%nat).
  { apply lookup_lt_Some in Hk. rewrite length_cumulative_weights in Hk. exact Hk. }
  destruct (lookup_lt_is_Some_2 transformations k Hlt) as [t Ht].
  exists k, t, c. rewrite Ht. repeat split; assumption.
Qed.

Lemma choose_transformation_fern_in_loop_witness :
  exists k t c,
    transformations !! k = Some t /\
    cumulative_weights 0%float transformations !! k = Some c /\
    PrimFloat.leb (random_random (F := float) (Replay [2 ^ 53 - 1]%Z)).1 c = true /\
    scan (random_random (F := float) (Replay [2 ^ 53 - 1]%Z)).1 0%float transformations
    = Some t /\
    choose_transformation transformations (Replay [2 ^ 53 - 1]%Z)
    = (Ok t, (random_random (F := float) (Replay [2 ^ 53 - 1]%Z)).2).
Proof.
  apply (@choose_transformation_fern_in_loop replay replay_source
           (Replay [2 ^ 53 - 1]%Z)).
  vm_compute. reflexivity.
Defined.

(** ** The segments of the Koch curve, in real arithmetic *)

Section KochGeometry.
Local Open Scope R_scope.

(** every two consecutive points are at squared distance [D] *)
Definition equal_steps (D : R) (pts : list (point R)) : Prop :=
  forall i a b, pts !! i = Some a -> pts !! S i = Some b -> sqdist a b = D.

Lemma equal_steps_glue (D : R) (c1 c2 : list (point R)) (e : point R) :
  last c1 = Some e -> head c2 = Some e ->
  equal_steps D c1 -> equal_steps D c2 ->
  equal_steps D (removelast c1 ++ c2).
Proof.
  intros H1 H2 S1 S2.
  apply last_Some in H1 as [l ->]. rewrite removelast_last.
  destruct c2 as [|e' t]; [discriminate|]. injection H2 as ->.
  intros i a b Ha Hb.
  destruct (decide (S i < length l)%nat) as [Hi|Hi].
  - rewrite lookup_app_l in Ha, Hb by lia.
    apply (S1 i); rewrite lookup_app_l by lia; assumption.
  - destruct (decide (S i = length l)) as [Hi'|Hi'].
    + rewrite lookup_app_l in Ha by lia.
      rewrite lookup_app_r, Hi', Nat.sub_diag in Hb by lia.
      apply (S1 i).
      * rewrite lookup_app_l by lia. exact Ha.
      * rewrite lookup_app_r, Hi', Nat.sub_diag by lia. exact Hb.
    + rewrite lookup_app_r in Ha, Hb by lia.
      apply (S2 (i - length l)%nat); [exact Ha|].
      replace (S (i - length l)) with (S i - length l)%nat by lia. exact Hb.
Qed.

(** the four segments of one subdivision step are a third of the base *)
Lemma koch_step_sqdist (p1 p2 : point R) :
  let base := vsub p2 p1 in
  let pA := vadd p1 (vdiv base (f_of_Z 3)) in
  let pB := vadd p1 (vdiv (vscale (f_of_Z 2) base) (f_of_Z 3)) in
  let peak := vadd pA (dot rot (vdiv base (f_of_Z 3))) in
  sqdist p1 pA = sqdist p1 p2 / 9 /\
  sqdist pA peak = sqdist p1 p2 / 9 /\
  sqdist peak pB = sqdist p1 p2 / 9 /\
  sqdist pB p2 = sqdist p1 p2 / 9.
Proof.
  destruct p1 as [x1 y1], p2 as [x2 y2].
  assert (Hs : R_sqrt.sqrt 3 * R_sqrt.sqrt 3 = 3) by (apply sqrt_sqrt; Lra.lra).
  unfold sqdist, vadd, vsub, vdiv, vscale, dot, rot.
  cbn [fst snd fadd fsub fmul fdiv fopp fhalf f_of_Z R_scalar fsqrt R_sqrt_instance].
  unfold fsqrt, R_sqrt_instance.
  repeat split; field [Hs].
Qed.

Lemma koch_curve_points_equal_steps (limit : nat) :
  forall (p1 p2 : point R) (depth : Z),
    (0 <= depth < Z.of_nat limit)%Z ->
    exists pts,
      koch_curve_points limit p1 p2 depth = Ok pts /\
      equal_steps (sqdist p1 p2 * (/ 9) ^ Z.to_nat depth) pts.
Proof.
  induction limit as [|limit IH]; intros p1 p2 depth Hd; [lia|].
  cbn [koch_curve_points].
  destruct (Z.eqb_spec depth 0) as [->|Hne].
  - exists [p1; p2]. split; [reflexivity|].
    intros [|[|i]] a b Ha Hb; try discriminate.
    injection Ha as <-. injection Hb as <-.
    change (Z.to_nat 0) with 0%nat. rewrite pow_O. ring.
  - assert (Hd' : (0 <= depth - 1 < Z.of_nat limit)%Z) by lia.
    pose proof (koch_step_sqdist p1 p2) as Hstep. cbn zeta in Hstep.
    set (base := vsub p2 p1) in *.
    set (pA := vadd p1 (vdiv base (f_of_Z 3))) in *.
    set (pB := vadd p1 (vdiv (vscale (f_of_Z 2) base) (f_of_Z 3))) in *.
    set (peak := vadd pA (dot rot (vdiv base (f_of_Z 3)))) in *.
    destruct Hstep as (D1 & D2 & D3 & D4).
    assert (HD : forall D, D = sqdist p1 p2 / 9 ->
              D * (/ 9) ^ Z.to_nat (depth - 1)
              = sqdist p1 p2 * (/ 9) ^ Z.to_nat depth).
    { intros D ->. replace (Z.to_nat depth) with (S (Z.to_nat (depth - 1))) by lia.
      cbn [pow]. field. }
    destruct (IH p1 pA _ Hd') as (c1 & E1 & S1).
    destruct (IH pA peak _ Hd') as (c2 & E2 & S2).
    destruct (IH peak pB _ Hd') as (c3 & E3 & S3).
    destruct (IH pB p2 _ Hd') as (c4 & E4 & S4).
    rewrite (HD _ D1) in S1. rewrite (HD _ D2) in S2.
    rewrite (HD _ D3) in S3. rewrite (HD _ D4) in S4.
    destruct (koch_curve_points_shape limit p1 pA _ Hd') as (? & X1 & N1 & _ & L1).
    destruct (koch_curve_points_shape limit pA peak _ Hd') as (? & X2 & N2 & F2 & L2).
    destruct (koch_curve_points_shape limit peak pB _ Hd') as (? & X3 & N3 & F3 & L3).
    destruct (koch_curve_points_shape limit pB p2 _ Hd') as (? & X4 & _ & F4 & _).
    rewrite E1 in X1; rewrite E2 in X2; rewrite E3 in X3; rewrite E4 in X4.
    inversion X1; inversion X2; inversion X3; inversion X4; subst.
    rewrite E1, E2, E3, E4. cbn.
    eexists. split; [reflexivity|].
    assert (0 < 4 ^ (depth - 1))%Z by (apply Z.pow_pos_nonneg; lia).
    eapply equal_steps_glue; [exact L1| |exact S1|].
    { rewrite head_app, head_removelast, F2 by lia. reflexivity. }
    eapply equal_steps_glue; [exact L2| |exact S2|].
    { rewrite head_app, head_removelast, F3 by lia. reflexivity. }
    eapply equal_steps_glue; [exact L3|exact F4|exact S3|exact S4].
Qed.
End KochGeometry.

(** X11: in real arithmetic the Koch subdivision at depth [d] is made of
    [4 ^ d] segments of equal length, [|p2 - p1| / 3 ^ d]: the squared
    distance of every two consecutive points is [|p2 - p1|^2 / 9 ^ d]. *)
Theorem koch_curve_points_segments
    (limit : nat) (p1 p2 : point R) (depth : Z) :
  (0 <= depth < Z.of_nat limit)%Z ->
  exists pts,
    koch_curve_points limit p1 p2 depth = Ok pts /\
    Z.of_nat (length pts) = (4 ^ depth + 1)%Z /\
    forall i a b,
      pts !! i = Some a -> pts !! S i = Some b ->
      sqdist a b = (sqdist p1 p2 * (/ 9) ^ Z.to_nat depth)%R.
Proof.
  intros Hd.
  destruct (koch_curve_points_equal_steps limit p1 p2 depth Hd) as (pts & E & HS).
  destruct (koch_curve_points_shape limit p1 p2 depth Hd) as (pts' & E' & L & _).
  rewrite E in E'. inversion E'; subst pts'.
  exists pts. repeat split; assumption.
Qed.

Lemma koch_curve_points_segments_witness :
  exists pts,
    koch_curve_points 1000 ((- (3 / 2))%R, 0%R) ((3 / 2)%R, 0%R) 5 = Ok pts /\
    Z.of_nat (length pts) = (4 ^ 5 + 1)%Z /\
    forall i a b,
      pts !! i = Some a -> pts !! S i = Some b ->
      sqdist a b = (sqdist ((- (3 / 2))%R, 0%R) ((3 / 2)%R, 0%R) * (/ 9) ^ Z.to_nat 5)%R.
Proof.
  apply (koch_curve_points_segments 1000 ((- (3 / 2))%R, 0%R) ((3 / 2)%R, 0%R) 5). lia.
Defined.

(** ** The fern in exact arithmetic *)

Section Invariant.
Context {P X : Type} (step : P -> X -> P) (Inv : P -> Prop) (Good : X -> Prop).

Lemma orbit_invariant (xs : list X) :
  (forall p x, Inv p -> Good x -> Inv (step p x)) ->
  forall p, Inv p -> Forall Good xs -> Forall Inv (orbit step p xs).
Proof.
  intros Hstep. induction xs as [|x xs IH]; intros p Hp Hxs; simpl; [constructor|].
  inversion Hxs as [|? ? Hx Hxs']; subst.
  constructor; [apply Hstep; assumption|].
  apply IH; [apply Hstep; assumption|assumption].
Qed.
End Invariant.

Lemma fern_region_step (p : point Q) (t : transformation Q) :
  fern_region p -> t ∈ transformations_exact ->
  fern_region (apply_transformation p t).
Proof.
  destruct p as [x y]. unfold fern_region. cbn [fst snd].
  intros (H1 & H2 & H3 & H4 & H5 & H6 & H7 & H8) Ht.
  unfold transformations_exact in Ht.
  rewrite !elem_of_cons, elem_of_nil in Ht.
  destruct Ht as [->|[->|[->|[->|[]]]]];
    unfold apply_transformation, vadd, dot;
    cbn [fst snd t_matrix t_offset fadd fmul Q_scalar];
    repeat split; lra.
Qed.

(** the offsets cancel in the difference of two images *)
Lemma sqdist_Q_apply (p q : point Q) (t : transformation Q) :
  (sqdist_Q (apply_transformation p t) (apply_transformation q t)
   == ((t_matrix t).1.1 * (q.1 - p.1) + (t_matrix t).1.2 * (q.2 - p.2))
      * ((t_matrix t).1.1 * (q.1 - p.1) + (t_matrix t).1.2 * (q.2 - p.2))
      + ((t_matrix t).2.1 * (q.1 - p.1) + (t_matrix t).2.2 * (q.2 - p.2))
        * ((t_matrix t).2.1 * (q.1 - p.1) + (t_matrix t).2.2 * (q.2 - p.2)))%Q.
Proof.
  unfold sqdist_Q, apply_transformation, vadd, dot.
  cbn [fst snd fadd fmul Q_scalar]. ring.
Qed.

Lemma fern_contract_step (p q : point Q) (t : transformation Q) :
  t ∈ transformations_exact ->
  (sqdist_Q (apply_transformation p t) (apply_transformation q t)
   <= (7241 # 10000) * sqdist_Q p q)%Q.
Proof.
  intros Ht. rewrite sqdist_Q_apply. unfold sqdist_Q.
  generalize (q.1 - p.1)%Q (q.2 - p.2)%Q. intros u v.
  unfold transformations_exact in Ht.
  rewrite !elem_of_cons, elem_of_nil in Ht.
  destruct Ht as [->|[->|[->|[->|[]]]]]; cbn [fst snd t_matrix]; nra.
Qed.

(** X12: in exact arithmetic, with the decimals of the table read exactly, the
    fern stays bounded: every point of every run has
    [-2.53 <= x <= 2.78] and [0 <= y <= 10.42] (so it fits the plot
    window horizontally and at the bottom). *)
Theorem animate_barnsley_bounded_exact
    {G : Type} `{RandomSource Q G} (count : Z) (g : G) :
  (1 <= count)%Z ->
  exists pts g',
    animate_barnsley transformations_exact count g = (Ok pts, g') /\
    forall i p, pts !! i = Some p ->
      (- (253 # 100) <= p.1 /\ p.1 <= 139 # 50 /\ 0 <= p.2 /\ p.2 <= 521 # 50)%Q.
Proof.
  intros Hc. rewrite animate_barnsley_chain.
  assert (Hne : transformations_exact <> []) by discriminate.
  destruct (chain_run_ok (choose_transformation transformations_exact)
              apply_transformation
              (fun g => ltac:(destruct (choose_transformation_ok transformations_exact g Hne)
                                as (t & E & _);
                              exact (ex_intro _ t (ex_intro _ _ E))))
              (f_of_Z 0, f_of_Z 0) (f_of_Z 0, f_of_Z 0) count g Hc)
    as (pts & g' & E & _ & _ & Hlook & _).
  exists pts, g'. split; [exact E|].
  assert (H0 : fern_region (f_of_Z 0, f_of_Z 0)).
  { unfold fern_region. cbn. repeat split; discriminate. }
  assert (Hreg : forall i p, pts !! i = Some p -> fern_region p).
  { intros i p Hp. rewrite Hlook in Hp by (eapply lookup_lt_Some, Hp).
    destruct i as [|i]; simpl in Hp.
    - inversion Hp; subst. exact H0.
    - eapply Forall_lookup_1; [|exact Hp].
      apply (orbit_invariant apply_transformation fern_region
               (fun t => t ∈ transformations_exact)).
      + intros q t Hq Ht. apply fern_region_step; assumption.
      + exact H0.
      + apply draw_list_Forall. intros g0 t g0' E0.
        destruct (choose_transformation_ok transformations_exact g0 Hne) as (t' & E' & Hin).
        rewrite E' in E0. inversion E0; subst. exact Hin. }
  intros i p Hp. destruct (Hreg i p Hp) as (H1 & H2 & H3 & H4 & _).
  repeat split; assumption.
Qed.

Lemma animate_barnsley_bounded_exact_witness :
  exists pts g',
    animate_barnsley transformations_exact 1000 (lcg_seed 42) = (Ok pts, g') /\
    forall i p, pts !! i = Some p ->
      (- (253 # 100) <= p.1 /\ p.1 <= 139 # 50 /\ 0 <= p.2 /\ p.2 <= 521 # 50)%Q.
Proof.
  apply (@animate_barnsley_bounded_exact lcg lcg_source 1000 (lcg_seed 42)). lia.
Defined.

(** X13: in exact arithmetic every transform of the table is a contraction, and
    so is every composition: applying the same [n] transforms of the table
    to two points multiplies their squared distance by at most
    [0.7241 ^ n], so that the points drawn forget where the run started. *)
Theorem fern_transformations_contract
    (ts : list (transformation Q)) (p q : point Q) :
  Forall (fun t => t ∈ transformations_exact) ts ->
  (sqdist_Q (foldl apply_transformation p ts) (foldl apply_transformation q ts)
   <= (7241 # 10000) ^ Z.of_nat (length ts) * sqdist_Q p q)%Q.
Proof.
  intros Hts. revert p q.
  induction Hts as [|t ts Ht _ IH]; intros p q.
  - change ((7241 # 10000) ^ Z.of_nat (length []))%Q with 1%Q.
    rewrite Qmult_1_l. apply Qle_refl.
  - cbn [foldl length].
    eapply Qle_trans; [apply IH|].
    pose proof (fern_contract_step p q t Ht) as Hc.
    assert (Hk : (0 <= (7241 # 10000) ^ Z.of_nat (length ts))%Q)
      by (apply Qpower_0_le; discriminate).
    assert (Hs : ((7241 # 10000) ^ Z.of_nat (S (length ts))
                  == (7241 # 10000) ^ Z.of_nat (length ts) * (7241 # 10000))%Q).
    { rewrite Nat2Z.inj_succ, <- Z.add_1_r.
      rewrite Qpower_plus by discriminate. reflexivity. }
    rewrite Hs.
    clear IH Hs.
    generalize dependent ((7241 # 10000) ^ Z.of_nat (length ts))%Q.
    generalize dependent (sqdist_Q (apply_transformation p t) (apply_transformation q t)).
    generalize dependent (sqdist_Q p q).
    intros B A HA K HK. nra.
Qed.

Lemma fern_transformations_contract_witness :
  (sqdist_Q (foldl apply_transformation (0, 0)%Q transformations_exact)
            (foldl apply_transformation (1, 1)%Q transformations_exact)
   <= (7241 # 10000) ^ Z.of_nat (length transformations_exact) * sqdist_Q (0, 0) (1, 1))%Q.
Proof.
  apply (fern_transformations_contract transformations_exact (0, 0)%Q (1, 1)%Q).
  apply Forall_forall. intros t Ht. exact Ht.
Defined.

(** ** The triangle around the Koch curve, in real arithmetic *)

Section KochTriangle.
Local Open Scope R_scope.

Lemma in_triangle_intro (A B C p : point R) (a b c : R) :
  0 <= a -> 0 <= b -> 0 <= c -> a + b + c = 1 ->
  p.1 = a * A.1 + b * B.1 + c * C.1 ->
  p.2 = a * A.2 + b * B.2 + c * C.2 ->
  in_triangle A B C p.
Proof. intros. exists a, b, c. repeat split; assumption. Qed.

(** a triangle with its vertices in a triangle lies in that triangle *)
Lemma in_triangle_trans (A B C A' B' C' p : point R) :
  in_triangle A B C A' -> in_triangle A B C B' -> in_triangle A B C C' ->
  in_triangle A' B' C' p -> in_triangle A B C p.
Proof.
  intros (a1 & b1 & c1 & Ha1 & Hb1 & Hc1 & Hs1 & Hx1 & Hy1)
         (a2 & b2 & c2 & Ha2 & Hb2 & Hc2 & Hs2 & Hx2 & Hy2)
         (a3 & b3 & c3 & Ha3 & Hb3 & Hc3 & Hs3 & Hx3 & Hy3)
         (a & b & c & Ha & Hb & Hc & Hs & Hx & Hy).
  apply (in_triangle_intro A B C p
           (a * a1 + b * a2 + c * a3) (a * b1 + b * b2 + c * b3)
           (a * c1 + b * c2 + c * c3)).
  - Lra.nra.
  - Lra.nra.
  - Lra.nra.
  - replace (a * a1 + b * a2 + c * a3 + (a * b1 + b * b2 + c * b3)
             + (a * c1 + b * c2 + c * c3))
      with (a * (a1 + b1 + c1) + b * (a2 + b2 + c2) + c * (a3 + b3 + c3)) by ring.
    rewrite Hs1, Hs2, Hs3. Lra.lra.
  - rewrite Hx, Hx1, Hx2, Hx3. ring.
  - rewrite Hy, Hy1, Hy2, Hy3. ring.
Qed.

(** the triangles over the four segments of a subdivision step lie in the
    triangle over the base, and the peak is its apex *)
Lemma koch_step_triangles (p1 p2 : point R) :
  let base := vsub p2 p1 in
  let pA := vadd p1 (vdiv base (f_of_Z 3)) in
  let pB := vadd p1 (vdiv (vscale (f_of_Z 2) base) (f_of_Z 3)) in
  let peak := vadd pA (dot rot (vdiv base (f_of_Z 3))) in
  let T := in_triangle p1 p2 (koch_apex p1 p2) in
  peak = koch_apex p1 p2 /\
  T p1 /\ T p2 /\ T pA /\ T pB /\ T peak /\
  T (koch_apex p1 pA) /\ T (koch_apex pA peak) /\
  T (koch_apex peak pB) /\ T (koch_apex pB p2).
Proof.
  destruct p1 as [x1 y1], p2 as [x2 y2].
  assert (Hs : R_sqrt.sqrt 3 * R_sqrt.sqrt 3 = 3) by (apply sqrt_sqrt; Lra.lra).
  cbn zeta.
  unfold koch_apex, vadd, vsub, vdiv, vscale, dot, rot.
  cbn [fst snd fadd fsub fmul fdiv fopp fhalf f_of_Z R_scalar].
  unfold fsqrt, R_sqrt_instance.
  split; [f_equal; field [Hs]|].
  split; [apply (in_triangle_intro _ _ _ _ 1 0 0); cbn [fst snd]; try Lra.lra; field [Hs]|].
  split; [apply (in_triangle_intro _ _ _ _ 0 1 0); cbn [fst snd]; try Lra.lra; field [Hs]|].
  split; [apply (in_triangle_intro _ _ _ _ (2/3) (1/3) 0); cbn [fst snd]; try Lra.lra; field [Hs]|].
  split; [apply (in_triangle_intro _ _ _ _ (1/3) (2/3) 0); cbn [fst snd]; try Lra.lra; field [Hs]|].
  split; [apply (in_triangle_intro _ _ _ _ 0 0 1); cbn [fst snd]; try Lra.lra; field [Hs]|].
  split; [apply (in_triangle_intro _ _ _ _ (2/3) 0 (1/3)); cbn [fst snd]; try Lra.lra; field [Hs]|].
  split; [apply (in_triangle_intro _ _ _ _ (1/3) 0 (2/3)); cbn [fst snd]; try Lra.lra; field [Hs]|].
  split; [apply (in_triangle_intro _ _ _ _ 0 (1/3) (2/3)); cbn [fst snd]; try Lra.lra; field [Hs]|].
  apply (in_triangle_intro _ _ _ _ 0 (2/3) (1/3)); cbn [fst snd]; try Lra.lra; field [Hs].
Qed.

Lemma Forall_removelast {A} (Q : A -> Prop) (l : list A) :
  Forall Q l -> Forall Q (removelast l).
Proof.
  intros Hl. rewrite removelast_firstn_len. apply Forall_take, Hl.
Qed.

Lemma koch_curve_points_in_triangle (limit : nat) :
  forall (p1 p2 : point R) (depth : Z),
    (0 <= depth < Z.of_nat limit)%Z ->
    exists pts,
      koch_curve_points limit p1 p2 depth = Ok pts /\
      Forall (in_triangle p1 p2 (koch_apex p1 p2)) pts.
Proof.
  induction limit as [|limit IH]; intros p1 p2 depth Hd; [lia|].
  pose proof (koch_step_triangles p1 p2) as Hstep. cbn zeta in Hstep.
  cbn [koch_curve_points].
  destruct (Z.eqb_spec depth 0) as [->|Hne].
  - exists [p1; p2]. split; [reflexivity|].
    destruct Hstep as (_ & T1 & T2 & _). repeat constructor; assumption.
  - assert (Hd' : (0 <= depth - 1 < Z.of_nat limit)%Z) by lia.
    set (base := vsub p2 p1) in *.
    set (pA := vadd p1 (vdiv base (f_of_Z 3))) in *.
    set (pB := vadd p1 (vdiv (vscale (f_of_Z 2) base) (f_of_Z 3))) in *.
    set (peak := vadd pA (dot rot (vdiv base (f_of_Z 3)))) in *.
    destruct Hstep as (_ & T1 & T2 & TA & TB & TP & A1 & A2 & A3 & A4).
    destruct (IH p1 pA _ Hd') as (c1 & -> & F1).
    destruct (IH pA peak _ Hd') as (c2 & -> & F2).
    destruct (IH peak pB _ Hd') as (c3 & -> & F3).
    destruct (IH pB p2 _ Hd') as (c4 & -> & F4).
    cbn. eexists. split; [reflexivity|].
    repeat apply Forall_app_2; try apply Forall_removelast.
    + eapply Forall_impl; [exact F1|]. intros q. apply in_triangle_trans; assumption.
    + eapply Forall_impl; [exact F2|]. intros q. apply in_triangle_trans; assumption.
    + eapply Forall_impl; [exact F3|]. intros q. apply in_triangle_trans; assumption.
    + eapply Forall_impl; [exact F4|]. intros q. apply in_triangle_trans; assumption.
Qed.
End KochTriangle.

(** X14: in real arithmetic every point of the Koch subdivision of a segment, at
    every depth, lies in the triangle over that segment whose apex is the
    peak of the first subdivision step, at height [sqrt 3 / 6] times the
    length of the segment above its middle. *)
Theorem koch_curve_points_triangle
    (limit : nat) (p1 p2 : point R) (depth : Z) :
  (0 <= depth < Z.of_nat limit)%Z ->
  exists pts,
    koch_curve_points limit p1 p2 depth = Ok pts /\
    forall i p, pts !! i = Some p -> in_triangle p1 p2 (koch_apex p1 p2) p.
Proof.
  intros Hd.
  destruct (koch_curve_points_in_triangle limit p1 p2 depth Hd) as (pts & E & HF).
  exists pts. split; [exact E|].
  intros i p Hp. eapply Forall_lookup_1; eassumption.
Qed.

Lemma koch_curve_points_triangle_witness :
  exists pts,
    koch_curve_points 1000 ((- (3 / 2))%R, 0%R) ((3 / 2)%R, 0%R) 5 = Ok pts /\
    forall i p, pts !! i = Some p ->
      in_triangle ((- (3 / 2))%R, 0%R) ((3 / 2)%R, 0%R) (koch_apex ((- (3 / 2))%R, 0%R) ((3 / 2)%R, 0%R)) p.
Proof.
  apply (koch_curve_points_triangle 1000 ((- (3 / 2))%R, 0%R) ((3 / 2)%R, 0%R) 5). lia.
Defined.
